(** * workgroup: the orchestration protocol of [Work], [WorkFor], [WorkChan]

    A shallow embedding of [work.go].  One run is a transition system over
    goroutines: the calling goroutine (the entry point) and one goroutine
    closure per worker.  A schedule, a list of [choice]s, says which
    goroutine takes its next atomic action; every statement about a run is
    proved for all schedules.

    Go panics follow the language specification: deferred calls run last-in
    first-out while the goroutine unwinds, [recover()] returns the panic
    value only when it is called directly by the deferred function, and a
    panic that leaves a goroutine ends the process.

    What the embedding takes as given:
    - [sync.WaitGroup] is a counter; [Wait] returns when it is zero.
    - [context.WithCancel] yields a context that is done when its parent was
      done at the start of the run or [cancel] has been called; the parent is
      not cancelled from outside while the run lasts.
    - A worker body is a function of what it sees of the context when it
      ends; a [Manage] call and a [Result()] call take effect atomically.
    - The channel of [WorkChan] delivers finitely many workers and is then
      closed.
    - [Executer] and [Manager] are interfaces whose implementations are not
      in [work.go]; the built-in ones are modelled from the specification and
      marked so. *)

From stdpp Require Import base option list sets strings numbers.

Local Open Scope Z_scope.

(** ** Values, errors and outcomes *)

(** The argument of [panic(...)]: an [interface{}] holding a string or an
    [error]. *)
Inductive value :=
| VString (s : string)
| VError (msg : string).

(** The textual form of a panic value, as [fmt.Sprint] prints it. *)
Definition textual (v : value) : string :=
  match v with
  | VString s => s
  | VError msg => msg
  end.

(** Non-nil [error] values, by dynamic type: an error with a message,
    [context.Canceled], and, modelled from the spec, the two errors the
    decorators make of a panic: [PanicError] (named in [work_test.go]) and
    the same with a [Panic()] method. *)
Inductive error :=
| Plain (msg : string)
| Canceled
| PanicError (v : value)
| RepanicError (v : value).

(** An [error] interface value: [None] is [nil]. *)
Definition outcome := option error.

#[global] Instance value_eq_dec : EqDecision value.
Proof. solve_decision. Defined.
#[global] Instance error_eq_dec : EqDecision error.
Proof. solve_decision. Defined.

(** Modelled from the spec: the [Error()] method of the error types declared
    outside [work.go]; a recovered fault reads ["panic: <original value>"]. *)
Definition Error (e : error) : string :=
  match e with
  | Plain msg => msg
  | Canceled => "context canceled"%string
  | PanicError v | RepanicError v => ("panic: " ++ textual v)%string
  end.

(** The type assertion [m.Result().(interface{ Panic() })] of [work.go]
    lines 60, 112 and 164: [Some v] when the dynamic type has a [Panic()]
    method, which raises [v]; [nil] has no methods. *)
Definition as_Panicker (r : outcome) : option value :=
  match r with
  | Some (RepanicError v) => Some v
  | _ => None
  end.

(** ** Contexts, workers, managers, executers *)

(** A [context.Context] as a run sees it: whether its [Done()] channel is
    already closed when the run starts. *)
Record Ctx := { Done : bool }.

(** [context.TODO()]: never cancelled. *)
Definition TODO : Ctx := {| Done := false |}.
(** [context.Background()]. *)
Definition Background : Ctx := {| Done := false |}.

(** How one call of a worker body ends. *)
Inductive completion :=
| Returns (err : outcome)
| Panics (v : value).

(** [type Worker func(Ctx) error].  The argument is what the body sees of
    the run's context: whether [ctx.Done()] is closed. *)
Definition Worker := bool → completion.

(** [type WorkerIdx func(Ctx, int) error]. *)
Definition WorkerIdx := bool → Z → completion.

(** What one [Manage] call does besides changing the manager: whether it
    invoked the canceller, and the sequence number it returns. *)
Record managed (S : Type) := Managed_ {
  mg_state : S;
  mg_cancel : bool;
  mg_seq : Z }.
Arguments Managed_ {S} _ _ _.
Arguments mg_state {S} _.
Arguments mg_cancel {S} _.
Arguments mg_seq {S} _.

(** The [Manager] interface, as [work.go] uses it:
    [Manage(ctx, canceller, err) int] and [Result() error].  A manager is an
    object with private state [mstate]; [mnew] is its state when it is handed
    to the entry point.

    [Manage]'s arguments are the closed flag of [ctx.Done()], the value
    [recover()] yields inside the method body, and [err].  A call takes
    effect atomically. *)
Record Manager := {
  mstate : Type;
  mnew : mstate;
  Manage : mstate → bool → option value → outcome → managed mstate;
  Result : mstate → mstate * outcome }.

(** [recover()] evaluated [depth] calls below the deferred function that the
    panic is running: the panic value directly in the deferred function,
    [nil] in anything that function calls. *)
Definition recover_at (depth : nat) (panicking : option value) : option value :=
  match depth with
  | O => panicking
  | S _ => None
  end.

(** Modelled from the spec: the executers ([Executer] and its constructors
    are declared outside [work.go]).  [NewUnlimited()] starts a goroutine per
    submission; [NewLimited(k)] starts a goroutine per submission that takes
    one of [k] semaphore slots before it runs the action; [NewPool(ctx, k)]
    has [k] goroutines serving a queue for as long as [ctx] is not done. *)
Inductive Executer :=
| NewUnlimited
| NewLimited (k : nat)
| NewPool (scope : Ctx) (k : nat).

(** Modelled from the spec: may a submitted action begin, with [held]
    actions already occupying a slot (or a pool goroutine)?  The unbounded
    executer always says yes; the bounded ones while a slot is free; the pool
    only while its context is not done. *)
Definition admits (e : Executer) (held : nat) : bool :=
  match e with
  | NewUnlimited => true
  | NewLimited k => bool_decide (held < k)%nat
  | NewPool scope k => negb (Done scope) && bool_decide (held < k)%nat
  end.

(** ** Managers *)

(** Modelled from the spec: the state of a built-in policy (the managers are
    declared outside [work.go]): the completion-sequence counter, the
    have-we-decided-yet flag, and the outcome kept for [Result()]. *)
Record policy_state := Policy {
  count : Z;
  decided : bool;
  kept : outcome }.

Definition policy_new : policy_state :=
  {| count := 0; decided := false; kept := None |}.

(** Modelled from the spec: [CancelNeverFirstError()] never cancels and
    reports the first non-nil outcome it observed, else nil. *)
Definition CancelNeverFirstError : Manager := {|
  mstate := policy_state;
  mnew := policy_new;
  Manage st _ _ err :=
    let n := count st + 1 in
    match err with
    | Some _ =>
        if decided st then Managed_ (Policy n true (kept st)) false n
        else Managed_ (Policy n true err) false n
    | None => Managed_ (Policy n (decided st) (kept st)) false n
    end;
  Result st := (st, kept st) |}.

(** Modelled from the spec: [CancelOnFirstError()] cancels on the first
    non-nil outcome and reports that outcome. *)
Definition CancelOnFirstError : Manager := {|
  mstate := policy_state;
  mnew := policy_new;
  Manage st _ _ err :=
    let n := count st + 1 in
    match err with
    | Some _ =>
        if decided st then Managed_ (Policy n true (kept st)) false n
        else Managed_ (Policy n true err) true n
    | None => Managed_ (Policy n (decided st) (kept st)) false n
    end;
  Result st := (st, kept st) |}.

(** Modelled from the spec: [CancelOnFirstSuccess()] cancels on the first nil
    outcome; it reports nil if any nil outcome was observed, else the first
    non-nil outcome. *)
Definition CancelOnFirstSuccess : Manager := {|
  mstate := policy_state;
  mnew := policy_new;
  Manage st _ _ err :=
    let n := count st + 1 in
    match err with
    | None =>
        if decided st then Managed_ (Policy n true (kept st)) false n
        else Managed_ (Policy n true (kept st)) true n
    | Some _ =>
        match kept st with
        | Some _ => Managed_ (Policy n (decided st) (kept st)) false n
        | None => Managed_ (Policy n (decided st) err) false n
        end
    end;
  Result st := (st, if decided st then None else kept st) |}.

(** Modelled from the spec: [CancelOnFirstComplete()] cancels on the very
    first [Manage] call and reports the outcome of that call. *)
Definition CancelOnFirstComplete : Manager := {|
  mstate := policy_state;
  mnew := policy_new;
  Manage st _ _ err :=
    let n := count st + 1 in
    if decided st then Managed_ (Policy n true (kept st)) false n
    else Managed_ (Policy n true err) true n;
  Result st := (st, kept st) |}.

(** Modelled from the spec: [Recover(m)] turns a fault it intercepts into a
    [PanicError] and forwards it to [m] as an ordinary failure.  The only
    means a Go method has to intercept a panic is [recover()], the second
    argument of [Manage]. *)
Definition Recover (m : Manager) : Manager := {|
  mstate := mstate m;
  mnew := mnew m;
  Manage st done recovered err :=
    match recovered with
    | Some v => Manage m st done None (Some (PanicError v))
    | None => Manage m st done None err
    end;
  Result st := Result m st |}.

(** Modelled from the spec: [Repanic(m)] behaves like [Recover(m)] and marks
    the aggregate result with the re-raise capability. *)
Definition Repanic (m : Manager) : Manager := {|
  mstate := mstate m;
  mnew := mnew m;
  Manage st done recovered err :=
    match recovered with
    | Some v => Manage m st done None (Some (PanicError v))
    | None => Manage m st done None err
    end;
  Result st :=
    match Result m st with
    | (st', Some (PanicError v)) => (st', Some (RepanicError v))
    | other => other
    end |}.

(** Modelled from the spec: [DefaultExecuter()], declared outside
    [work.go]; a missing executer defaults to the unbounded one. *)
Definition DefaultExecuter : Executer := NewUnlimited.

(** Modelled from the spec: [DefaultManager()], declared outside [work.go];
    a missing manager defaults to [CancelNeverFirstError]. *)
Definition DefaultManager : Manager := CancelNeverFirstError.

(** ** Runs *)

(** What the three entry points set up before their loop: the resolved
    context, executer and manager, the workers in submission order, the
    argument of the [wg.Add] before the loop and of the one inside it. *)
Record run := Run {
  r_ctx : Ctx;
  r_executer : Executer;
  r_manager : Manager;
  r_group : list Worker;
  r_add : Z;
  r_add_each : Z }.

(** [func Work(ctx Ctx, e Executer, m Manager, g ...Worker) error],
    lines 25-43: the three nil checks and [wg.Add(len(g))]. *)
Definition Work (ctx : option Ctx) (e : option Executer) (m : option Manager)
    (g : list Worker) : run :=
  let ctx := match ctx with None => TODO | Some c => c end in
  let e := match e with None => DefaultExecuter | Some e => e end in
  let m := match m with None => DefaultManager | Some m => m end in
  {| r_ctx := ctx; r_executer := e; r_manager := m; r_group := g;
     r_add := Z.of_nat (length g); r_add_each := 0 |}.

(** The closures of [WorkFor]'s loop, [i = 0 .. n-1]: each calls
    [w(ctx, index)]. *)
Definition indexed (n : Z) (w : WorkerIdx) : list Worker :=
  (λ (i : nat) (done : bool), w done (Z.of_nat i)) <$> seq 0 (Z.to_nat n).

(** [func WorkFor(ctx Ctx, n int, e Executer, m Manager, w WorkerIdx) error],
    lines 77-96: the nil checks and [wg.Add(n)]. *)
Definition WorkFor (ctx : option Ctx) (n : Z) (e : option Executer)
    (m : option Manager) (w : WorkerIdx) : run :=
  let ctx := match ctx with None => TODO | Some c => c end in
  let e := match e with None => DefaultExecuter | Some e => e end in
  let m := match m with None => DefaultManager | Some m => m end in
  {| r_ctx := ctx; r_executer := e; r_manager := m; r_group := indexed n w;
     r_add := n; r_add_each := 0 |}.

(** [func WorkChan(ctx Ctx, e Executer, m Manager, g <-chan Worker) error],
    lines 129-148.  [g] lists the workers received from the channel before
    it is closed; [wg.Add(1)] precedes each submission. *)
Definition WorkChan (ctx : option Ctx) (e : option Executer) (m : option Manager)
    (g : list Worker) : run :=
  let ctx := match ctx with None => TODO | Some c => c end in
  let e := match e with None => DefaultExecuter | Some e => e end in
  let m := match m with None => DefaultManager | Some m => m end in
  {| r_ctx := ctx; r_executer := e; r_manager := m; r_group := g;
     r_add := 0; r_add_each := 1 |}.

(** ** The goroutines of a run *)

(** Where the entry point stands: in its loop, about to submit worker [k]
    (with every worker submitted it stands in [wg.Wait()]); or gone, by
    [return] or by a panic. *)
Inductive mstatus :=
| Submitting (k : nat)
| Returned (r : outcome)
| Panicked (v : value).

(** Where the closure of one worker stands (lines 46-55):
    not yet handed to [e.Execute]; handed over, not begun; inside
    [err = worker(ctx)]; body over, the deferred [Manage] call next; [Manage]
    over, the deferred [wg.Done()] next, with the panic that is unwinding, if
    any; returned; or left by a panic that nothing recovered. *)
Inductive tstatus :=
| Unsubmitted
| Submitted
| Running
| Ran (c : completion)
| Reported (p : option value)
| Finished
| Escaped (v : value).

(** What an observer of the run records, in the order it happens. *)
Inductive event :=
| EvExecute (i : nat)
| EvBegin (i : nat)
| EvBody (i : nat) (c : completion)
| EvManage (i : nat) (err : outcome) (cancel : bool) (seq : Z)
| EvDone (i : nat)
| EvFatal (v : value)
| EvResult (r : outcome)
| EvPanic (v : value)
| EvCancel.

#[global] Instance completion_eq_dec : EqDecision completion.
Proof. solve_decision. Defined.
#[global] Instance tstatus_eq_dec : EqDecision tstatus.
Proof. solve_decision. Defined.
#[global] Instance mstatus_eq_dec : EqDecision mstatus.
Proof. solve_decision. Defined.
#[global] Instance event_eq_dec : EqDecision event.
Proof. solve_decision. Defined.

(** The state of a run: the entry point, the closures, the [WaitGroup]
    counter, the manager, whether the derived context is cancelled, how many
    closures occupy the executer, the panic that ended the process (if one
    did), and the events so far. *)
Record state (r : run) := State {
  main : mstatus;
  tasks : list tstatus;
  wg : Z;
  mgr : mstate (r_manager r);
  cancelled : bool;
  held : nat;
  crashed : option value;
  trace : list event }.
Arguments State {r} _ _ _ _ _ _ _ _.
Arguments main {r} _.
Arguments tasks {r} _.
Arguments wg {r} _.
Arguments mgr {r} _.
Arguments cancelled {r} _.
Arguments held {r} _.
Arguments crashed {r} _.
Arguments trace {r} _.

(** The message of [sync.WaitGroup] when [Add] drives the counter below
    zero. *)
Definition negative_counter : value := VString "sync: negative WaitGroup counter"%string.

(** Lines 38-43: [context.WithCancel(ctx)], [defer cancel()], the
    [WaitGroup] and the [wg.Add] before the loop.  A negative [n] makes
    [wg.Add(n)] panic; the deferred [cancel()] runs as the panic leaves. *)
Definition start (r : run) : state r :=
  if bool_decide (r_add r < 0) then
    State (Panicked negative_counter) (replicate (length (r_group r)) Unsubmitted) 0
      (mnew (r_manager r)) true 0%nat None [EvPanic negative_counter; EvCancel]
  else
    State (Submitting 0) (replicate (length (r_group r)) Unsubmitted) (r_add r)
      (mnew (r_manager r)) (Done (r_ctx r)) 0%nat None [].

(** The outcome the deferred closure hands to [Manage] (lines 49-54): [err]
    is assigned only if the body returns. *)
Definition err_of (c : completion) : outcome :=
  match c with
  | Returns err => err
  | Panics _ => None
  end.

(** The panic a body leaves unwinding in its goroutine. *)
Definition panic_of (c : completion) : option value :=
  match c with
  | Returns _ => None
  | Panics v => Some v
  end.

(** Lines 58-63, with the deferred [cancel()] of line 39: what the entry
    point does once [wg.Wait()] returns: [m.Result()] is probed for a
    [Panic()] method; if it has one, [r.Panic()] re-raises; if not,
    [m.Result()] is called again and its value returned; [cancel()] runs on
    the way out either way.  Yields the manager, the events and how the call
    ends.  The whole is one action: once the counter is zero no closure has
    anything left to do that the entry point could observe. *)
Definition finish (m : Manager) (st : mstate m) : mstate m * list event * mstatus :=
  let '(st1, r1) := Result m st in
  match as_Panicker r1 with
  | Some v => (st1, [EvResult r1; EvPanic v; EvCancel], Panicked v)
  | None =>
      let '(st2, r2) := Result m st1 in
      (st2, [EvResult r1; EvResult r2; EvCancel], Returned r2)
  end.

(** Which goroutine acts next. *)
Inductive choice :=
| Main
| Task (i : nat).

(** The next action of the entry point: one iteration of the loop
    ([wg.Add] of [WorkChan], then [e.Execute], which returns without
    waiting), or, past the loop, [wg.Wait()] and what follows it. *)
Definition step_main {r : run} (s : state r) : option (state r) :=
  match main s with
  | Submitting k =>
      if bool_decide (k < length (r_group r))%nat then
        Some (State (Submitting (S k)) (<[k := Submitted]> (tasks s))
                (wg s + r_add_each r) (mgr s) (cancelled s) (held s) None
                (trace s ++ [EvExecute k]))
      else if bool_decide (wg s = 0) then
        let '(st, evs, exit) := finish (r_manager r) (mgr s) in
        Some (State exit (tasks s) (wg s) st true (held s) None (trace s ++ evs))
      else None
  | Returned _ | Panicked _ => None
  end.

(** The next action of the closure of worker [i] (lines 46-55, 98-107,
    150-159), by its status:
    - [Submitted]: the executer begins the closure, if it admits one more;
      [defer wg.Done()] and the deferred function literal are registered.
    - [Running]: [err = worker(ctx)] ends; the body returns, and [err] is
      assigned, or it panics, and [err] keeps its zero value.
    - [Ran]: the function literal deferred last runs first and calls
      [m.Manage(ctx, CancellerFunc(cancel), err)].  [Manage] is one call below
      the deferred function, so [recover()] inside it yields nil and a panic
      goes on unwinding.
    - [Reported]: the deferred [wg.Done()] runs; then the closure returns and
      frees its place in the executer, or the panic leaves the goroutine.
    - [Escaped]: the unrecovered panic ends the process. *)
Definition step_task {r : run} (i : nat) (s : state r) : option (state r) :=
  match tasks s !! i with
  | Some Submitted =>
      if admits (r_executer r) (held s) then
        Some (State (main s) (<[i := Running]> (tasks s)) (wg s) (mgr s)
                (cancelled s) (S (held s)) None (trace s ++ [EvBegin i]))
      else None
  | Some Running =>
      match r_group r !! i with
      | Some worker =>
          let c := worker (cancelled s) in
          Some (State (main s) (<[i := Ran c]> (tasks s)) (wg s) (mgr s)
                  (cancelled s) (held s) None (trace s ++ [EvBody i c]))
      | None => None
      end
  | Some (Ran c) =>
      let res := Manage (r_manager r) (mgr s) (cancelled s)
                   (recover_at 1 (panic_of c)) (err_of c) in
      Some (State (main s) (<[i := Reported (panic_of c)]> (tasks s)) (wg s)
              (mg_state res) (cancelled s || mg_cancel res) (held s) None
              (trace s ++ [EvManage i (err_of c) (mg_cancel res) (mg_seq res)]))
  | Some (Reported None) =>
      Some (State (main s) (<[i := Finished]> (tasks s)) (wg s - 1) (mgr s)
              (cancelled s) (pred (held s)) None (trace s ++ [EvDone i]))
  | Some (Reported (Some v)) =>
      Some (State (main s) (<[i := Escaped v]> (tasks s)) (wg s - 1) (mgr s)
              (cancelled s) (held s) None (trace s ++ [EvDone i]))
  | Some (Escaped v) =>
      Some (State (main s) (tasks s) (wg s) (mgr s) (cancelled s) (held s)
              (Some v) (trace s ++ [EvFatal v]))
  | Some Unsubmitted | Some Finished | None => None
  end.

(** One action of the chosen goroutine; [None] when it cannot act.  Nothing
    acts once the process has died. *)
Definition step {r : run} (c : choice) (s : state r) : option (state r) :=
  match crashed s with
  | Some _ => None
  | None =>
      match c with
      | Main => step_main s
      | Task i => step_task i s
      end
  end.

(** Run a schedule; a choice that cannot act is skipped. *)
Fixpoint exec {r : run} (sched : list choice) (s : state r) : state r :=
  match sched with
  | [] => s
  | c :: rest =>
      match step c s with
      | Some s' => exec rest s'
      | None => exec rest s
      end
  end.

(** The states a run can be in. *)
Inductive reachable (r : run) : state r → Prop :=
| reach_start : reachable r (start r)
| reach_step c s s' : reachable r s → step c s = Some s' → reachable r s'.

(** The same actions as a relation, one constructor per branch of [step]. *)
Inductive action (r : run) (s : state r) : state r → Prop :=
| act_execute k :
    crashed s = None → main s = Submitting k → (k < length (r_group r))%nat →
    action r s (State (Submitting (S k)) (<[k := Submitted]> (tasks s))
                  (wg s + r_add_each r) (mgr s) (cancelled s) (held s) None
                  (trace s ++ [EvExecute k]))
| act_finish k st evs exit :
    crashed s = None → main s = Submitting k → ¬ (k < length (r_group r))%nat →
    wg s = 0 → finish (r_manager r) (mgr s) = (st, evs, exit) →
    action r s (State exit (tasks s) (wg s) st true (held s) None (trace s ++ evs))
| act_begin i :
    crashed s = None → tasks s !! i = Some Submitted →
    admits (r_executer r) (held s) = true →
    action r s (State (main s) (<[i := Running]> (tasks s)) (wg s) (mgr s)
                  (cancelled s) (S (held s)) None (trace s ++ [EvBegin i]))
| act_body i worker :
    crashed s = None → tasks s !! i = Some Running → r_group r !! i = Some worker →
    action r s (State (main s) (<[i := Ran (worker (cancelled s))]> (tasks s)) (wg s)
                  (mgr s) (cancelled s) (held s) None
                  (trace s ++ [EvBody i (worker (cancelled s))]))
| act_manage i c res :
    crashed s = None → tasks s !! i = Some (Ran c) →
    res = Manage (r_manager r) (mgr s) (cancelled s) None (err_of c) →
    action r s (State (main s) (<[i := Reported (panic_of c)]> (tasks s)) (wg s)
                  (mg_state res) (cancelled s || mg_cancel res) (held s) None
                  (trace s ++ [EvManage i (err_of c) (mg_cancel res) (mg_seq res)]))
| act_done i :
    crashed s = None → tasks s !! i = Some (Reported None) →
    action r s (State (main s) (<[i := Finished]> (tasks s)) (wg s - 1) (mgr s)
                  (cancelled s) (pred (held s)) None (trace s ++ [EvDone i]))
| act_escape i v :
    crashed s = None → tasks s !! i = Some (Reported (Some v)) →
    action r s (State (main s) (<[i := Escaped v]> (tasks s)) (wg s - 1) (mgr s)
                  (cancelled s) (held s) None (trace s ++ [EvDone i]))
| act_fatal i v :
    crashed s = None → tasks s !! i = Some (Escaped v) →
    action r s (State (main s) (tasks s) (wg s) (mgr s) (cancelled s) (held s)
                  (Some v) (trace s ++ [EvFatal v])).

(** The runs the three entry points set up. *)
Inductive entry : run → Prop :=
| entry_Work ctx e m g : entry (Work ctx e m g)
| entry_WorkFor ctx n e m w : entry (WorkFor ctx n e m w)
| entry_WorkChan ctx e m g : entry (WorkChan ctx e m g).

(** ** Counting closures by status *)

Definition is_submitted (t : tstatus) : bool :=
  match t with Unsubmitted => false | _ => true end.

Definition is_done (t : tstatus) : bool :=
  match t with Finished | Escaped _ => true | _ => false end.

(** The closure occupies the executer: begun and not yet returned. *)
Definition occupies (t : tstatus) : bool :=
  match t with Running | Ran _ | Reported _ | Escaped _ => true | _ => false end.

(** The worker body is executing. *)
Definition in_body (t : tstatus) : bool :=
  match t with Running => true | _ => false end.

Fixpoint tally (f : tstatus → bool) (l : list tstatus) : nat :=
  match l with
  | [] => 0
  | t :: l' => (if f t then 1 else 0) + tally f l'
  end.

(** How far the loop of the entry point has come. *)
Definition progress (r : run) (m : mstatus) : nat :=
  match m with
  | Submitting k => k
  | _ => length (r_group r)
  end.

Definition gone (m : mstatus) : bool :=
  match m with Submitting _ => false | _ => true end.

(** The events about worker [i]. *)
Definition about (i : nat) (e : event) : bool :=
  match e with
  | EvExecute j | EvBegin j | EvBody j _ | EvManage j _ _ _ | EvDone j =>
      bool_decide (i = j)
  | _ => false
  end.

Fixpoint history (i : nat) (tr : list event) : list event :=
  match tr with
  | [] => []
  | e :: tr' => if about i e then e :: history i tr' else history i tr'
  end.

(** The [Result()] calls of a trace, in order. *)
Fixpoint results (tr : list event) : list outcome :=
  match tr with
  | [] => []
  | EvResult r :: tr' => r :: results tr'
  | _ :: tr' => results tr'
  end.

(** The outcomes handed to [Manage], in the order of the calls. *)
Fixpoint outcomes (tr : list event) : list outcome :=
  match tr with
  | [] => []
  | EvManage _ err _ _ :: tr' => err :: outcomes tr'
  | _ :: tr' => outcomes tr'
  end.

(** The sequence numbers [Manage] returned, in the order of the calls. *)
Fixpoint seqnos (tr : list event) : list Z :=
  match tr with
  | [] => []
  | EvManage _ _ _ n :: tr' => n :: seqnos tr'
  | _ :: tr' => seqnos tr'
  end.

(** Whether each [Manage] call invoked the canceller, in the order of the
    calls. *)
Fixpoint cancels (tr : list event) : list bool :=
  match tr with
  | [] => []
  | EvManage _ _ b _ :: tr' => b :: cancels tr'
  | _ :: tr' => cancels tr'
  end.

(** How often [Manage] was called for worker [i]. *)
Fixpoint manage_calls (i : nat) (tr : list event) : nat :=
  match tr with
  | [] => 0
  | EvManage j _ _ _ :: tr' => (if bool_decide (i = j) then 1 else 0) + manage_calls i tr'
  | _ :: tr' => manage_calls i tr'
  end.

(** How often the body of worker [i] was run to its end. *)
Fixpoint body_runs (i : nat) (tr : list event) : nat :=
  match tr with
  | [] => 0
  | EvBody j _ :: tr' => (if bool_decide (i = j) then 1 else 0) + body_runs i tr'
  | _ :: tr' => body_runs i tr'
  end.

(** The first non-nil outcome of a list, else nil. *)
Fixpoint first_error (l : list outcome) : outcome :=
  match l with
  | [] => None
  | Some e :: _ => Some e
  | None :: l' => first_error l'
  end.

(** The numbers [1, 2, ..., n]. *)
Definition one_to (n : nat) : list Z := map Z.of_nat (seq 1 n).

(** ** Invariants of a run *)

(** The [wg.Add] calls of a run add up to the number of workers, or the
    first one panics before any worker is submitted. *)
Definition balanced (r : run) : Prop :=
  (r_add_each r = 0 ∧ r_add r = Z.of_nat (length (r_group r))) ∨
  (r_add_each r = 1 ∧ r_add r = 0) ∨
  (r_add r < 0 ∧ r_group r = []).

(** The bookkeeping of a run: the loop position, the [WaitGroup] counter
    and the executer's occupancy against the statuses of the closures. *)
Record accounts (r : run) (s : state r) : Prop := {
  acc_length : length (tasks s) = length (r_group r);
  acc_progress : tally is_submitted (tasks s) = progress r (main s);
  acc_rest : ∀ i, (progress r (main s) ≤ i)%nat → (i < length (r_group r))%nat →
             tasks s !! i = Some Unsubmitted;
  acc_wg : 0 ≤ r_add r →
           wg s = r_add r + r_add_each r * Z.of_nat (tally is_submitted (tasks s))
                  - Z.of_nat (tally is_done (tasks s));
  acc_held : held s = tally occupies (tasks s);
  acc_gone : gone (main s) = true → tally is_done (tasks s) = length (r_group r) }.

(** [c] is how the body of worker [i] ended, for what it saw of the
    context. *)
Definition ended (r : run) (i : nat) (c : completion) : Prop :=
  ∃ worker done, r_group r !! i = Some worker ∧ c = worker done.

(** The events about one worker, by the status of its closure. *)
Inductive script (r : run) (i : nat) : tstatus → list event → Prop :=
| sc_unsubmitted : script r i Unsubmitted []
| sc_submitted : script r i Submitted [EvExecute i]
| sc_running : script r i Running [EvExecute i; EvBegin i]
| sc_ran c :
    ended r i c →
    script r i (Ran c) [EvExecute i; EvBegin i; EvBody i c]
| sc_reported c b n :
    ended r i c →
    script r i (Reported (panic_of c))
      [EvExecute i; EvBegin i; EvBody i c; EvManage i (err_of c) b n]
| sc_finished c b n :
    ended r i c → panic_of c = None →
    script r i Finished
      [EvExecute i; EvBegin i; EvBody i c; EvManage i (err_of c) b n; EvDone i]
| sc_escaped c b n v :
    ended r i c → panic_of c = Some v →
    script r i (Escaped v)
      [EvExecute i; EvBegin i; EvBody i c; EvManage i (err_of c) b n; EvDone i].

(** Every closure's events follow its script, and nothing is recorded
    about a worker that does not exist. *)
Definition scripted (r : run) (s : state r) : Prop :=
  ∀ i, match tasks s !! i with
       | Some t => script r i t (history i (trace s))
       | None => history i (trace s) = []
       end.

(** Modelled from the spec: the built-in managers, the four policies under
    any number of [Recover] and [Repanic] decorators. *)
Inductive builtin : Manager → Prop :=
| builtin_never : builtin CancelNeverFirstError
| builtin_error : builtin CancelOnFirstError
| builtin_success : builtin CancelOnFirstSuccess
| builtin_complete : builtin CancelOnFirstComplete
| builtin_Recover m : builtin m → builtin (Recover m)
| builtin_Repanic m : builtin m → builtin (Repanic m).

(** A manager that numbers its [Manage] calls with a counter, and whose
    [Result()] only reads. *)
Class Sequenced (m : Manager) := {
  counter : mstate m → Z;
  counter_new : counter (mnew m) = 0;
  counter_Manage st done p err :
    mg_seq (Manage m st done p err) = counter st + 1 ∧
    counter (mg_state (Manage m st done p err)) = counter st + 1;
  Result_reads st : (Result m st).1 = st }.

(** The workers of a run never panic. *)
Definition calm (r : run) : Prop :=
  ∀ i worker done, r_group r !! i = Some worker → panic_of (worker done) = None.

(** What is left to do: the actions each closure still has to take, and the
    entry point's last one. *)
Definition todo (t : tstatus) : nat :=
  match t with
  | Unsubmitted => 5
  | Submitted => 4
  | Running => 3
  | Ran _ => 2
  | Reported _ => 1
  | Finished | Escaped _ => 0
  end.

Fixpoint backlog (l : list tstatus) : nat :=
  match l with
  | [] => 0
  | t :: l' => todo t + backlog l'
  end.

Definition remaining {r : run} (s : state r) : nat :=
  backlog (tasks s) + (if gone (main s) then 0 else 1).

(** Did any [Manage] call so far invoke the canceller? *)
Definition policy_cancelled (tr : list event) : bool := existsb id (cancels tr).

(** A manager whose [Result()] is a function of the outcomes it was handed,
    in the order of the [Manage] calls; [seen st l] says that [st] is the
    manager's state after the outcomes [l]. *)
Class Decides (m : Manager) (verdict : list outcome → outcome) := {
  seen : mstate m → list outcome → Prop;
  seen_new : seen (mnew m) [];
  seen_Manage st l done err :
    seen st l → seen (mg_state (Manage m st done None err)) (l ++ [err]);
  seen_Result st l : seen st l → Result m st = (st, verdict l) }.

(** The re-raise mark [Repanic] puts on a recovered fault. *)
Definition mark (r : outcome) : outcome :=
  match r with
  | Some (PanicError v) => Some (RepanicError v)
  | other => other
  end.

(** How the entry point ends when [Result()] yields [res] both times. *)
Definition exit_with (res : outcome) : mstatus :=
  match as_Panicker res with
  | Some v => Panicked v
  | None => Returned res
  end.

(** The record of the entry point's last action in the trace: nothing
    before it ends; the probing [Result()] call, then either the re-raise or
    the second [Result()] call whose value is returned; no [Manage] and no
    [Result()] call after that. *)
Definition concluded (r : run) (s : state r) : Prop :=
  match main s with
  | Submitting _ => results (trace s) = []
  | Returned res =>
      ∃ pre post st0 st1 st2 r1,
        trace s = pre ++ EvResult r1 :: EvResult res :: EvCancel :: post ∧
        results pre = [] ∧ results post = [] ∧ outcomes post = [] ∧
        Result (r_manager r) st0 = (st1, r1) ∧ as_Panicker r1 = None ∧
        Result (r_manager r) st1 = (st2, res)
  | Panicked v =>
      r_add r < 0 ∨
      ∃ pre post st0 st1 r1,
        trace s = pre ++ EvResult r1 :: EvPanic v :: EvCancel :: post ∧
        results pre = [] ∧ results post = [] ∧ outcomes post = [] ∧
        Result (r_manager r) st0 = (st1, r1) ∧ as_Panicker r1 = Some v
  end.

(** The state of an error-keeping policy after the outcomes [l]. *)
Definition first_error_seen (st : policy_state) (l : list outcome) : Prop :=
  kept st = first_error l ∧ decided st = bool_decide (is_Some (first_error l)).

(** What a run with a deciding manager has come to: while the entry point
    waits, the manager has seen the outcomes on record; once it is gone, it
    returned the verdict on them, or re-raised the fault the verdict
    carries. *)
Definition settled (r : run) (verdict : list outcome → outcome)
    `{!Decides (r_manager r) verdict} (s : state r) : Prop :=
  match main s with
  | Submitting _ => seen (mgr s) (outcomes (trace s))
  | Returned res => res = verdict (outcomes (trace s)) ∧ as_Panicker res = None
  | Panicked v => r_add r < 0 ∨ as_Panicker (verdict (outcomes (trace s))) = Some v
  end.

(** A panic is unwinding the closure, or has left it. *)
Definition unwinding (t : tstatus) : bool :=
  match t with
  | Ran (Panics _) | Reported (Some _) | Escaped _ => true
  | _ => false
  end.

(** The runs of [Work] and [WorkFor] with the unbounded executer and the
    [CancelNeverFirstError] manager. *)
Inductive unbounded_never : run → Prop :=
| un_Work ctx g :
    unbounded_never (Work ctx (Some NewUnlimited) (Some CancelNeverFirstError) g)
| un_WorkFor ctx n w :
    unbounded_never (WorkFor ctx n (Some NewUnlimited) (Some CancelNeverFirstError) w).

(** The bound of an executer on the actions it runs at once, if it has
    one. *)
Definition capacity (e : Executer) : option nat :=
  match e with
  | NewUnlimited => None
  | NewLimited k | NewPool _ k => Some k
  end.

(** Two runs that no schedule tells apart. *)
Definition same_behaviour (r1 r2 : run) : Prop :=
  ∀ sched,
    let s1 := exec sched (start r1) in
    let s2 := exec sched (start r2) in
    trace s1 = trace s2 ∧ main s1 = main s2 ∧ tasks s1 = tasks s2 ∧
    cancelled s1 = cancelled s2 ∧ crashed s1 = crashed s2.

(** ** A worker that panics, as in [TestRecoverManager] and
    [TestRepanicManager] *)

Definition boom : value := VString "boom".

(** The worker of the two tests, with index 0 as the one that panics: the
    others return [ctx.Err()] if the context is done, else nil. *)
Definition faulty : WorkerIdx :=
  λ done index,
    if index =? 0 then Panics boom
    else if done then Returns (Some Canceled) else Returns None.

Definition recover_run : run :=
  WorkFor (Some Background) 2 (Some NewUnlimited) (Some (Recover CancelOnFirstError)) faulty.

Definition repanic_run : run :=
  WorkFor (Some Background) 2 (Some NewUnlimited) (Some (Repanic CancelOnFirstError)) faulty.

(** Both workers submitted, then the closure of worker 0 through its five
    actions: begin, body, [Manage], [wg.Done()], and the panic leaving the
    goroutine. *)
Definition panic_first : list choice :=
  [Main; Main; Task 0; Task 0; Task 0; Task 0; Task 0].

(** ** Small runs to evaluate *)

Definition succeeds : Worker := λ _, Returns None.
Definition fails (msg : string) : Worker := λ _, Returns (Some (Plain msg)).
Definition panics (v : value) : Worker := λ _, Panics v.

(** A worker that hands back an error carrying a [Panic()] method. *)
Definition hands_back (v : value) : Worker := λ _, Returns (Some (RepanicError v)).

(** The closure of worker [i] from its begin to its [wg.Done()]. *)
Definition whole (i : nat) : list choice := [Task i; Task i; Task i; Task i].

(** Three workers submitted, then run to their ends in the order 2, 0, 1,
    then the entry point past [wg.Wait()]. *)
Definition last_first : list choice :=
  [Main; Main; Main] ++ whole 2 ++ whole 0 ++ whole 1 ++ [Main].

(** One worker submitted and run to its end, then the entry point. *)
Definition single : list choice := [Main] ++ whole 0 ++ [Main].

Definition three : run :=
  Work None None None [fails "a"; succeeds; fails "b"].

Definition three_limited : run :=
  WorkFor None 3 (Some (NewLimited 1)) None (λ _ _, Returns None).

Definition three_recovering : run :=
  WorkChan None None (Some (Recover (Repanic CancelOnFirstSuccess)))
    [fails "a"; succeeds; fails "b"].

(** * Proofs *)

(** ** Actions and schedules *)

Lemma step_action {r : run} (c : choice) (s s' : state r) :
  step c s = Some s' → action r s s'.
Proof.
  unfold step. destruct (crashed s) eqn:Hc; [done|].
  destruct c as [|i].
  - unfold step_main. destruct (main s) as [k| |] eqn:Hm; try done.
    case_bool_decide as Hk.
    + intros [= <-]. by apply act_execute.
    + case_bool_decide as Hw; [|done].
      destruct (finish (r_manager r) (mgr s)) as [[st evs] exit] eqn:Hf.
      intros [= <-]. by eapply act_finish.
  - unfold step_task. destruct (tasks s !! i) as [t|] eqn:Ht; [|done].
    destruct t as [| | |c|[v|]| |v]; try done.
    + destruct (admits _ _) eqn:Ha; [|done]. intros [= <-]. by apply act_begin.
    + destruct (r_group r !! i) as [w|] eqn:Hw; [|done].
      intros [= <-]. by apply act_body.
    + intros [= <-]. by eapply act_manage.
    + intros [= <-]. by apply act_escape.
    + intros [= <-]. by apply act_done.
    + intros [= <-]. by eapply act_fatal.
Qed.

Lemma exec_app {r : run} (a b : list choice) (s : state r) :
  exec (a ++ b) s = exec b (exec a s).
Proof.
  revert s. induction a as [|c a IH]; intros s; simpl; [done|].
  destruct (step c s); apply IH.
Qed.

Lemma reachable_exec_from {r : run} (sched : list choice) (s : state r) :
  reachable r s → reachable r (exec sched s).
Proof.
  revert s. induction sched as [|c sched IH]; intros s Hs; simpl; [done|].
  destruct (step c s) as [s'|] eqn:Hstep; [|by apply IH].
  apply IH. by eapply reach_step.
Qed.

Lemma reachable_exec (r : run) (sched : list choice) :
  reachable r (exec sched (start r)).
Proof. apply reachable_exec_from, reach_start. Qed.

(** An invariant of the actions holds in every reachable state. *)
Lemma reachable_invariant (r : run) (P : state r → Prop) :
  P (start r) →
  (∀ s s', reachable r s → P s → action r s s' → P s') →
  ∀ s, reachable r s → P s.
Proof.
  intros H0 Hstep s Hs. induction Hs as [|c s s' Hs IH Hc]; [done|].
  eapply Hstep; eauto using step_action.
Qed.

Lemma entry_balanced (r : run) : entry r → balanced r.
Proof.
  intros [ctx e m g|ctx n e m w|ctx e m g]; unfold balanced; simpl.
  - left. done.
  - destruct (decide (n < 0)) as [Hn|Hn].
    + right; right. split; [done|]. unfold indexed.
      replace (Z.to_nat n) with 0%nat by lia. done.
    + left. split; [done|]. unfold indexed. rewrite length_fmap, length_seq. lia.
  - right; left. done.
Qed.

(** ** Counting *)

Lemma tally_insert (f : tstatus → bool) (l : list tstatus) (i : nat) (x y : tstatus) :
  l !! i = Some x →
  (tally f (<[i := y]> l) + (if f x then 1 else 0) =
   tally f l + (if f y then 1 else 0))%nat.
Proof.
  revert i. induction l as [|t l IH]; intros i Hi; [done|].
  destruct i as [|i]; simpl in *.
  - injection Hi as ->. lia.
  - specialize (IH i Hi). lia.
Qed.

Lemma tally_le_length (f : tstatus → bool) (l : list tstatus) :
  (tally f l ≤ length l)%nat.
Proof. induction l as [|t l IH]; simpl; [lia|]. destruct (f t); lia. Qed.

Lemma tally_mono (f g : tstatus → bool) (l : list tstatus) :
  (∀ t, f t = true → g t = true) → (tally f l ≤ tally g l)%nat.
Proof.
  intros Hfg. induction l as [|t l IH]; simpl; [lia|].
  destruct (f t) eqn:Hf; [rewrite (Hfg t Hf)|destruct (g t)]; lia.
Qed.

Lemma tally_replicate_false (f : tstatus → bool) (n : nat) (t : tstatus) :
  f t = false → tally f (replicate n t) = 0%nat.
Proof. intros Hf. induction n as [|n IH]; simpl; [done|]. by rewrite Hf, IH. Qed.

Lemma tally_full (f : tstatus → bool) (l : list tstatus) (i : nat) (t : tstatus) :
  tally f l = length l → l !! i = Some t → f t = true.
Proof.
  revert i. induction l as [|x l IH]; intros i Hfull Hi; [done|].
  simpl in Hfull. pose proof (tally_le_length f l).
  destruct (f x) eqn:Hx; [|lia].
  destruct i as [|i]; simpl in Hi.
  - by injection Hi as <-.
  - apply (IH i); [lia|done].
Qed.

Lemma tally_positive (f : tstatus → bool) (l : list tstatus) :
  (0 < tally f l)%nat → ∃ i t, l !! i = Some t ∧ f t = true.
Proof.
  induction l as [|x l IH]; simpl; [lia|].
  destruct (f x) eqn:Hx.
  - intros _. by exists 0%nat, x.
  - intros Hpos. destruct IH as (i & t & Hi & Ht); [lia|]. by exists (S i), t.
Qed.

(** ** The bookkeeping invariant *)

Lemma finish_gone (m : Manager) (st st' : mstate m) (evs : list event) (exit : mstatus) :
  finish m st = (st', evs, exit) → gone exit = true.
Proof.
  unfold finish. destruct (Result m st) as [st1 r1].
  destruct (as_Panicker r1); [by intros [= <- <- <-]|].
  destruct (Result m st1) as [st2 r2]. by intros [= <- <- <-].
Qed.

(** Compare the tallies before and after the closure at [i] moves from one
    status to the next. *)
Ltac tallies Hi y :=
  lazymatch type of Hi with
  | ?l !! ?i = Some _ =>
      pose proof (tally_insert is_submitted _ _ _ y Hi);
      pose proof (tally_insert is_done _ _ _ y Hi);
      pose proof (tally_insert occupies _ _ _ y Hi);
      pose proof (tally_le_length is_done (<[i := y]> l));
      simpl in *
  end.

Lemma accounts_start (r : run) : balanced r → accounts r (start r).
Proof.
  intros Hbal. unfold start. case_bool_decide as Hneg.
  - assert (r_group r = []) as Hg.
    { destruct Hbal as [[_ ?]|[[_ ?]|[_ ?]]]; [lia|lia|done]. }
    split; simpl; rewrite ?Hg; simpl; try done; try lia.
  - split; simpl.
    + apply length_replicate.
    + by apply tally_replicate_false.
    + intros i _ Hi. by apply lookup_replicate_2.
    + intros _. rewrite !tally_replicate_false by done. lia.
    + by rewrite tally_replicate_false.
    + done.
Qed.

Lemma accounts_action (r : run) (s s' : state r) :
  balanced r → accounts r s → action r s s' → accounts r s'.
Proof.
  intros Hbal [Hlen Hprog Hrest Hwg Hheld Hgone] Hact.
  pose proof (tally_le_length is_submitted (tasks s)) as Hsub.
  pose proof (tally_le_length is_done (tasks s)) as Hdn.
  assert (∀ i t j, tasks s !! i = Some t → t ≠ Unsubmitted → ∀ y,
            (progress r (main s) ≤ j)%nat → (j < length (r_group r))%nat →
            <[i := y]> (tasks s) !! j = Some Unsubmitted) as Hkeep.
  { intros i t j Hi Ht y Hj1 Hj2. destruct (decide (i = j)) as [<-|Hne].
    - rewrite (Hrest i Hj1 Hj2) in Hi. congruence.
    - rewrite list_lookup_insert_ne by done. by apply Hrest. }
  destruct Hact as [k Hc Hm Hk|k st evs exit Hc Hm Hk Hw Hf|i Hc Hi Ha
                   |i w Hc Hi Hw|i c res Hc Hi Hres|i Hc Hi|i v Hc Hi|i v Hc Hi].
  - rewrite Hm in *; simpl in *.
    assert (tasks s !! k = Some Unsubmitted) as Hi by (apply Hrest; lia).
    tallies Hi Submitted.
    split; simpl; rewrite ?length_insert.
    + done.
    + lia.
    + intros i Hki Hi'. rewrite list_lookup_insert_ne by lia. apply Hrest; lia.
    + intros Hadd. specialize (Hwg Hadd). lia.
    + lia.
    + done.
  - rewrite Hm in *; simpl in *.
    pose proof (finish_gone _ _ _ _ _ Hf) as Hex.
    assert (k = length (r_group r)) as -> by lia.
    split; simpl.
    + done.
    + rewrite Hprog. by destruct exit.
    + intros i Hi1 Hi2. apply Hrest; [|done]. destruct exit; simpl in *; (done || lia).
    + done.
    + done.
    + intros _.
      destruct Hbal as [[He Ha]|[[He Ha]|[Ha Hg]]].
      * specialize (Hwg ltac:(lia)). lia.
      * specialize (Hwg ltac:(lia)). lia.
      * rewrite Hg in *. simpl in *. lia.
  - tallies Hi Running.
    split; simpl; rewrite ?length_insert;
      [done|lia|by eauto|intros Hadd; specialize (Hwg Hadd); lia|lia
      |intros Hg; specialize (Hgone Hg); lia].
  - tallies Hi (Ran (w (cancelled s))).
    split; simpl; rewrite ?length_insert;
      [done|lia|by eauto|intros Hadd; specialize (Hwg Hadd); lia|lia
      |intros Hg; specialize (Hgone Hg); lia].
  - tallies Hi (Reported (panic_of c)).
    split; simpl; rewrite ?length_insert;
      [done|lia|by eauto|intros Hadd; specialize (Hwg Hadd); lia|lia
      |intros Hg; specialize (Hgone Hg); lia].
  - tallies Hi Finished.
    split; simpl; rewrite ?length_insert in *;
      [done|lia|by eauto|intros Hadd; specialize (Hwg Hadd); lia|lia
      |intros Hg; specialize (Hgone Hg); lia].
  - tallies Hi (Escaped v).
    split; simpl; rewrite ?length_insert in *;
      [done|lia|by eauto|intros Hadd; specialize (Hwg Hadd); lia|lia
      |intros Hg; specialize (Hgone Hg); lia].
  - split; simpl; done.
Qed.

Lemma reachable_accounts (r : run) (s : state r) :
  balanced r → reachable r s → accounts r s.
Proof.
  intros Hbal. apply reachable_invariant.
  - by apply accounts_start.
  - intros ? ? _. by apply accounts_action.
Qed.

(** The counter never goes below zero after the first [wg.Add]: no
    [wg.Done()] of a closure can panic. *)
Lemma reachable_counter_nonnegative (r : run) (s : state r) :
  balanced r → reachable r s → 0 ≤ r_add r → 0 ≤ wg s.
Proof.
  intros Hbal Hs Hadd.
  pose proof (reachable_accounts r s Hbal Hs) as Hacc.
  rewrite (acc_wg _ _ Hacc Hadd).
  pose proof (tally_le_length is_done (tasks s)) as Hdone.
  pose proof (tally_mono is_done is_submitted (tasks s)) as Hmono.
  rewrite (acc_length _ _ Hacc) in Hdone.
  destruct Hbal as [[-> ->]|[[-> ->]|[? _]]]; [lia| |lia].
  assert (tally is_done (tasks s) ≤ tally is_submitted (tasks s))%nat;
    [apply Hmono; by intros []|lia].
Qed.

(** ** The events of one worker *)

Lemma history_app (i : nat) (a b : list event) :
  history i (a ++ b) = history i a ++ history i b.
Proof.
  induction a as [|e a IH]; simpl; [done|].
  destruct (about i e); simpl; by rewrite IH.
Qed.

Lemma finish_history (m : Manager) (st st' : mstate m) (evs : list event)
    (exit : mstatus) (i : nat) :
  finish m st = (st', evs, exit) → history i evs = [].
Proof.
  unfold finish. destruct (Result m st) as [st1 r1].
  destruct (as_Panicker r1); [by intros [= <- <- <-]|].
  destruct (Result m st1) as [st2 r2]. by intros [= <- <- <-].
Qed.

Lemma scripted_start (r : run) : scripted r (start r).
Proof.
  intros i. unfold start. case_bool_decide; simpl.
  - destruct (replicate _ _ !! i) as [t|] eqn:Hi; [|done].
    apply lookup_replicate_1 in Hi as [-> _]. constructor.
  - destruct (replicate _ _ !! i) as [t|] eqn:Hi; [|done].
    apply lookup_replicate_1 in Hi as [-> _]. constructor.
Qed.

(** The closure at [i0] takes an action recorded as [e]: its own history
    grows by [e], every other history stays. *)
Lemma scripted_move (r : run) (l : list tstatus) (tr : list event)
    (i0 : nat) (t t' : tstatus) (e : event) :
  (∀ i, match l !! i with
        | Some t => script r i t (history i tr)
        | None => history i tr = []
        end) →
  l !! i0 = Some t →
  (∀ i, about i e = bool_decide (i = i0)) →
  (script r i0 t (history i0 tr) → script r i0 t' (history i0 tr ++ [e])) →
  ∀ i, match <[i0 := t']> l !! i with
       | Some t => script r i t (history i (tr ++ [e]))
       | None => history i (tr ++ [e]) = []
       end.
Proof.
  intros Hscr Hi0 Habout Hnext i. rewrite history_app. simpl. rewrite Habout.
  destruct (decide (i = i0)) as [->|Hne].
  - rewrite list_lookup_insert_eq by (by eapply lookup_lt_Some).
    rewrite bool_decide_eq_true_2 by done.
    apply Hnext. specialize (Hscr i0). by rewrite Hi0 in Hscr.
  - rewrite list_lookup_insert_ne by done.
    rewrite bool_decide_eq_false_2 by done. rewrite app_nil_r. apply Hscr.
Qed.

(** Read the history of a closure off its script. *)
Ltac read_script :=
  let Hs := fresh "Hs" in
  intros Hs; inversion Hs; subst; simpl.

Lemma scripted_action (r : run) (s s' : state r) :
  accounts r s → scripted r s → action r s s' → scripted r s'.
Proof.
  intros Hacc Hscr Hact.
  destruct Hact as [k Hc Hm Hk|k st evs exit Hc Hm Hk Hw Hf|i0 Hc Hi Ha
                   |i0 w Hc Hi Hw|i0 c res Hc Hi Hres|i0 Hc Hi|i0 v Hc Hi|i0 v Hc Hi];
    unfold scripted; simpl.
  - assert (tasks s !! k = Some Unsubmitted) as Hi.
    { apply (acc_rest _ _ Hacc); rewrite ?Hm; simpl; lia. }
    eapply scripted_move; eauto.
    read_script. constructor.
  - intros i. rewrite history_app, (finish_history _ _ _ _ _ i Hf), app_nil_r.
    apply Hscr.
  - eapply scripted_move; eauto.
    read_script. constructor.
  - eapply scripted_move; eauto.
    read_script. constructor. by exists w, (cancelled s).
  - eapply scripted_move; eauto.
    read_script. by constructor.
  - eapply scripted_move; eauto.
    read_script. by apply sc_finished.
  - eapply scripted_move; eauto.
    read_script. by apply sc_escaped.
  - intros i. rewrite history_app. simpl. rewrite app_nil_r. apply Hscr.
Qed.

Lemma reachable_scripted (r : run) (s : state r) :
  balanced r → reachable r s → scripted r s.
Proof.
  intros Hbal. apply reachable_invariant.
  - apply scripted_start.
  - intros s0 s1 Hr. apply scripted_action. by apply reachable_accounts.
Qed.

Lemma manage_calls_history (i : nat) (tr : list event) :
  manage_calls i (history i tr) = manage_calls i tr.
Proof.
  induction tr as [|e tr IH]; simpl; [done|].
  destruct e as [j|j|j c|j err b n|j|v|res|v|]; simpl; try done;
    destruct (bool_decide (i = j)) eqn:Hij; simpl; rewrite ?Hij; by rewrite IH.
Qed.

Lemma body_runs_history (i : nat) (tr : list event) :
  body_runs i (history i tr) = body_runs i tr.
Proof.
  induction tr as [|e tr IH]; simpl; [done|].
  destruct e as [j|j|j c|j err b n|j|v|res|v|]; simpl; try done;
    destruct (bool_decide (i = j)) eqn:Hij; simpl; rewrite ?Hij; by rewrite IH.
Qed.

Lemma elem_of_history (i : nat) (e : event) (tr : list event) :
  e ∈ history i tr ↔ e ∈ tr ∧ about i e = true.
Proof.
  induction tr as [|x tr IH]; simpl.
  - split; [by intros ?%elem_of_nil|by intros [?%elem_of_nil _]].
  - rewrite elem_of_cons. destruct (about i x) eqn:Hx.
    + rewrite elem_of_cons, IH. split; [|tauto].
      intros [->|[? ?]]; tauto.
    + rewrite IH. split; [tauto|]. intros [[->|?] Ha]; [congruence|tauto].
Qed.

Lemma about_self_Done (i : nat) : about i (EvDone i) = true.
Proof. simpl. by apply bool_decide_eq_true_2. Qed.

Lemma worker_script (r : run) (s : state r) (i : nat) :
  balanced r → reachable r s → (i < length (r_group r))%nat →
  ∃ t, tasks s !! i = Some t ∧ script r i t (history i (trace s)).
Proof.
  intros Hbal Hs Hi.
  pose proof (reachable_accounts r s Hbal Hs) as Hacc.
  pose proof (reachable_scripted r s Hbal Hs i) as Hscr.
  destruct (tasks s !! i) as [t|] eqn:Ht; [by exists t|].
  apply lookup_ge_None in Ht. rewrite (acc_length _ _ Hacc) in Ht. lia.
Qed.

(** Once the entry point is past [wg.Wait()], every closure is over. *)
Lemma gone_all_done (r : run) (s : state r) (i : nat) (t : tstatus) :
  balanced r → reachable r s → gone (main s) = true →
  tasks s !! i = Some t → is_done t = true.
Proof.
  intros Hbal Hs Hg Hi.
  pose proof (reachable_accounts r s Hbal Hs) as Hacc.
  apply (tally_full is_done (tasks s) i); [|done].
  rewrite (acc_length _ _ Hacc). by apply (acc_gone _ _ Hacc).
Qed.

(** Split on the status of a closure, with its history spelled out. *)
Ltac script_cases Hscr :=
  inversion Hscr; subst;
  repeat match goal with
         | H : _ = history _ _ |- _ => rewrite <- H in *; clear H
         end;
  simpl in *.

(** C1.  In every run of [Work], [WorkFor] or [WorkChan], under every
    schedule, [Manage] is called at most once for each worker; once
    [wg.Done()] has run for a worker, the events about it are exactly:
    submitted, begun, body over (returned or panicked), one [Manage] call
    with the body's outcome, then [wg.Done()]; when the entry point is past
    [wg.Wait()], [wg.Done()] has run for every worker; and a closure whose
    body is over, by return or by panic, can always take its [Manage] call
    next while the process lives. *)
Theorem Manage_once_before_Done (r : run) (sched : list choice) (i : nat) :
  entry r → (i < length (r_group r))%nat →
  let s := exec sched (start r) in
  (manage_calls i (trace s) ≤ 1)%nat ∧
  (EvDone i ∈ trace s →
   manage_calls i (trace s) = 1%nat ∧
   ∃ c b n, ended r i c ∧
     history i (trace s) =
       [EvExecute i; EvBegin i; EvBody i c; EvManage i (err_of c) b n; EvDone i]) ∧
  (gone (main s) = true → EvDone i ∈ trace s) ∧
  (∀ c, tasks s !! i = Some (Ran c) → crashed s = None →
     ∃ s' b n, step (Task i) s = Some s' ∧
               trace s' = trace s ++ [EvManage i (err_of c) b n] ∧
               tasks s' !! i = Some (Reported (panic_of c))).
Proof.
  intros He Hi s.
  pose proof (entry_balanced r He) as Hbal.
  pose proof (reachable_exec r sched) as Hs. fold s in Hs.
  destruct (worker_script r s i Hbal Hs Hi) as (t & Ht & Hscr).
  assert (about i (EvDone i) = true) as Hab by apply about_self_Done.
  split; [|split; [|split]].
  - rewrite <- manage_calls_history.
    script_cases Hscr; rewrite ?bool_decide_eq_true_2 by done; lia.
  - intros Hd. assert (EvDone i ∈ history i (trace s)) as Hd'.
    { apply elem_of_history. done. }
    rewrite <- manage_calls_history. apply list_elem_of_In in Hd'.
    script_cases Hscr; rewrite ?bool_decide_eq_true_2 by done;
      try solve [exfalso; intuition discriminate]; split; eauto 10.
  - intros Hg. pose proof (gone_all_done r s i t Hbal Hs Hg Ht) as Hd.
    enough (EvDone i ∈ history i (trace s)) as Hd'
      by (by apply elem_of_history in Hd' as [? _]).
    apply list_elem_of_In. script_cases Hscr; try done; tauto.
  - intros c Hc Hlive. unfold step, step_task. rewrite Hlive, Hc. simpl.
    eexists _, _, _. split; [done|]. simpl. split; [done|].
    apply list_lookup_insert_eq. by eapply lookup_lt_Some.
Qed.

(** ** Cancellation of the derived context *)

Lemma finish_events (m : Manager) (st st' : mstate m) (evs : list event) (exit : mstatus) :
  finish m st = (st', evs, exit) →
  EvCancel ∈ evs ∧ cancels evs = [] ∧ outcomes evs = [] ∧ seqnos evs = [].
Proof.
  unfold finish. destruct (Result m st) as [st1 r1].
  destruct (as_Panicker r1).
  - intros [= <- <- <-]. repeat split; try done. set_solver.
  - destruct (Result m st1) as [st2 r2]. intros [= <- <- <-].
    repeat split; try done. set_solver.
Qed.

Lemma cancels_app (a b : list event) : cancels (a ++ b) = cancels a ++ cancels b.
Proof.
  induction a as [|e a IH]; simpl; [done|]. destruct e; simpl; by rewrite ?IH.
Qed.

Lemma outcomes_app (a b : list event) : outcomes (a ++ b) = outcomes a ++ outcomes b.
Proof.
  induction a as [|e a IH]; simpl; [done|]. destruct e; simpl; by rewrite ?IH.
Qed.

Lemma seqnos_app (a b : list event) : seqnos (a ++ b) = seqnos a ++ seqnos b.
Proof.
  induction a as [|e a IH]; simpl; [done|]. destruct e; simpl; by rewrite ?IH.
Qed.

Lemma results_app (a b : list event) : results (a ++ b) = results a ++ results b.
Proof.
  induction a as [|e a IH]; simpl; [done|]. destruct e; simpl; by rewrite ?IH.
Qed.

Lemma policy_cancelled_snoc (tr : list event) (e : event) :
  policy_cancelled (tr ++ [e]) =
  policy_cancelled tr || match e with EvManage _ _ b _ => b | _ => false end.
Proof.
  unfold policy_cancelled. rewrite cancels_app, existsb_app.
  destruct e; simpl; rewrite ?orb_false_r; done.
Qed.

(** Until the entry point is gone, the derived context is cancelled exactly
    when its parent was done or a [Manage] call invoked the canceller; once
    it is gone, the context is cancelled and the deferred [cancel()] is on
    record. *)
Lemma reachable_cancelled (r : run) (s : state r) :
  reachable r s →
  if gone (main s) then cancelled s = true ∧ EvCancel ∈ trace s
  else cancelled s = Done (r_ctx r) || policy_cancelled (trace s).
Proof.
  revert s. apply reachable_invariant.
  - unfold start. case_bool_decide; simpl; [|by rewrite orb_false_r].
    split; [done|set_solver].
  - intros s0 s1 _ IH Hact.
    destruct Hact as [k Hc Hm Hk|k st evs exit Hc Hm Hk Hw Hf|i0 Hc Hi Ha
                     |i0 w Hc Hi Hw|i0 c res Hc Hi Hres|i0 Hc Hi|i0 v Hc Hi|i0 v Hc Hi];
      simpl; try rewrite policy_cancelled_snoc; simpl; rewrite ?orb_false_r.
    + rewrite Hm in IH. done.
    + rewrite (finish_gone _ _ _ _ _ Hf). split; [done|].
      apply finish_events in Hf as [? _]. set_solver.
    + destruct (gone (main s0)); [|done]. destruct IH as [? ?]. split; [done|set_solver].
    + destruct (gone (main s0)); [|done]. destruct IH as [? ?]. split; [done|set_solver].
    + destruct (gone (main s0)).
      * destruct IH as [-> ?]. split; [done|set_solver].
      * rewrite IH. by rewrite orb_assoc.
    + destruct (gone (main s0)); [|done]. destruct IH as [? ?]. split; [done|set_solver].
    + destruct (gone (main s0)); [|done]. destruct IH as [? ?]. split; [done|set_solver].
    + destruct (gone (main s0)); [|done]. destruct IH as [? ?]. split; [done|set_solver].
Qed.

(** C4.  Whenever an entry point has handed control back to its caller, by
    returning nil, by returning an error or by re-raising a fault, the
    context derived for the run is cancelled and the deferred [cancel()] is
    on record; this holds whether or not a [Manage] call cancelled
    earlier. *)
Theorem child_scope_cancelled_on_exit (r : run) (sched : list choice) :
  entry r →
  let s := exec sched (start r) in
  gone (main s) = true →
  cancelled s = true ∧ EvCancel ∈ trace s.
Proof.
  intros _ s Hg. pose proof (reachable_cancelled r s (reachable_exec r sched)) as H.
  by rewrite Hg in H.
Qed.

(** ** The last action of the entry point *)

Lemma concluded_later (r : run) (s : state r) (e : event) (m : mstatus) :
  m = main s → results [e] = [] → outcomes [e] = [] →
  concluded r s →
  match m with
  | Submitting _ => results (trace s ++ [e]) = []
  | Returned res =>
      ∃ pre post st0 st1 st2 r1,
        trace s ++ [e] = pre ++ EvResult r1 :: EvResult res :: EvCancel :: post ∧
        results pre = [] ∧ results post = [] ∧ outcomes post = [] ∧
        Result (r_manager r) st0 = (st1, r1) ∧ as_Panicker r1 = None ∧
        Result (r_manager r) st1 = (st2, res)
  | Panicked v =>
      r_add r < 0 ∨
      ∃ pre post st0 st1 r1,
        trace s ++ [e] = pre ++ EvResult r1 :: EvPanic v :: EvCancel :: post ∧
        results pre = [] ∧ results post = [] ∧ outcomes post = [] ∧
        Result (r_manager r) st0 = (st1, r1) ∧ as_Panicker r1 = Some v
  end.
Proof.
  intros -> Hres Hout. unfold concluded. destruct (main s) as [k|res|v].
  - intros H. by rewrite results_app, H, Hres.
  - intros (pre & post & st0 & st1 & st2 & r1 & -> & Hpre & Hpost & Ho & H1 & Hp & H2).
    exists pre, (post ++ [e]), st0, st1, st2, r1.
    rewrite results_app, outcomes_app, Hpost, Ho, Hres, Hout.
    repeat split; try done. by rewrite <- app_assoc.
  - intros [Hneg|(pre & post & st0 & st1 & r1 & -> & Hpre & Hpost & Ho & H1 & Hp)];
      [by left|right].
    exists pre, (post ++ [e]), st0, st1, r1.
    rewrite results_app, outcomes_app, Hpost, Ho, Hres, Hout.
    repeat split; try done. by rewrite <- app_assoc.
Qed.

Lemma reachable_concluded (r : run) (s : state r) :
  balanced r → reachable r s → concluded r s.
Proof.
  intros Hbal. revert s. apply reachable_invariant.
  - unfold start, concluded. case_bool_decide; simpl; [by left|done].
  - intros s0 s1 Hr IH Hact.
    destruct Hact as [k Hc Hm Hk|k st evs exit Hc Hm Hk Hw Hf|i0 Hc Hi Ha
                     |i0 w Hc Hi Hw|i0 c res Hc Hi Hres|i0 Hc Hi|i0 v Hc Hi|i0 v Hc Hi];
      unfold concluded; simpl.
    + unfold concluded in IH. rewrite Hm in IH. by rewrite results_app, IH.
    + unfold concluded in IH. rewrite Hm in IH. unfold finish in Hf.
      destruct (Result (r_manager r) (mgr s0)) as [st1 r1] eqn:H1.
      destruct (as_Panicker r1) as [v|] eqn:Hp.
      * injection Hf as <- <- <-. right.
        by exists (trace s0), [], (mgr s0), st1, r1.
      * destruct (Result (r_manager r) st1) as [st2 r2] eqn:H2.
        injection Hf as <- <- <-.
        by exists (trace s0), [], (mgr s0), st1, st2, r1.
    + by apply concluded_later.
    + by apply concluded_later.
    + destruct (gone (main s0)) eqn:Hg.
      * by pose proof (gone_all_done r s0 i0 _ Hbal Hr Hg Hi).
      * unfold concluded in IH. destruct (main s0); try done.
        by rewrite results_app, IH.
    + by apply concluded_later.
    + by apply concluded_later.
    + by apply concluded_later.
Qed.

(** ** Managers whose result is a function of the outcomes *)

Lemma first_error_app (a b : list outcome) :
  first_error (a ++ b) =
  match first_error a with Some e => Some e | None => first_error b end.
Proof. induction a as [|[e|] a IH]; simpl; done. Qed.

Lemma first_error_seen_new :
  first_error_seen policy_new [].
Proof. done. Qed.

Lemma CancelNeverFirstError_seen st l done err :
  first_error_seen st l →
  first_error_seen (mg_state (Manage CancelNeverFirstError st done None err)) (l ++ [err]).
Proof.
  intros [Hk Hd]. unfold first_error_seen. simpl. rewrite first_error_app.
  destruct err as [e|]; simpl; rewrite Hd, Hk; by destruct (first_error l).
Qed.

Lemma CancelOnFirstError_seen st l done err :
  first_error_seen st l →
  first_error_seen (mg_state (Manage CancelOnFirstError st done None err)) (l ++ [err]).
Proof.
  intros [Hk Hd]. unfold first_error_seen. simpl. rewrite first_error_app.
  destruct err as [e|]; simpl; rewrite Hd, Hk; by destruct (first_error l).
Qed.

Lemma first_error_seen_Result st l :
  first_error_seen st l → (st, kept st) = (st, first_error l).
Proof. intros [Hk _]. by rewrite Hk. Qed.

#[global] Instance CancelNeverFirstError_decides :
  Decides CancelNeverFirstError first_error :=
  Build_Decides CancelNeverFirstError first_error first_error_seen
    first_error_seen_new CancelNeverFirstError_seen first_error_seen_Result.

#[global] Instance CancelOnFirstError_decides :
  Decides CancelOnFirstError first_error :=
  Build_Decides CancelOnFirstError first_error first_error_seen
    first_error_seen_new CancelOnFirstError_seen first_error_seen_Result.

#[global] Instance Recover_decides (m : Manager) (verdict : list outcome → outcome)
    `{!Decides m verdict} : Decides (Recover m) verdict :=
  Build_Decides (Recover m) verdict (seen (m := m)) (seen_new (m := m))
    (seen_Manage (m := m)) (seen_Result (m := m)).

Lemma Repanic_seen_Result (m : Manager) (verdict : list outcome → outcome)
    `{!Decides m verdict} (st : mstate m) (l : list outcome) :
  seen st l → Result (Repanic m) st = (st, mark (verdict l)).
Proof.
  intros Hs. simpl. rewrite (seen_Result st l Hs).
  by destruct (verdict l) as [[]|].
Qed.

#[global] Instance Repanic_decides (m : Manager) (verdict : list outcome → outcome)
    `{!Decides m verdict} : Decides (Repanic m) (λ l, mark (verdict l)) :=
  Build_Decides (Repanic m) (λ l, mark (verdict l)) (seen (m := m))
    (seen_new (m := m)) (seen_Manage (m := m)) (Repanic_seen_Result m verdict).

Lemma outcomes_quiet (tr : list event) (e : event) :
  outcomes [e] = [] → outcomes (tr ++ [e]) = outcomes tr.
Proof. intros H. by rewrite outcomes_app, H, app_nil_r. Qed.

Lemma reachable_settled (r : run) (verdict : list outcome → outcome)
    `{!Decides (r_manager r) verdict} (s : state r) :
  balanced r → reachable r s → settled r verdict s.
Proof.
  intros Hbal. revert s. apply reachable_invariant.
  - unfold start, settled. case_bool_decide; simpl; [by left|apply seen_new].
  - intros s0 s1 Hr IH Hact. unfold settled in *.
    destruct Hact as [k Hc Hm Hk|k st evs exit Hc Hm Hk Hw Hf|i0 Hc Hi Ha
                     |i0 w Hc Hi Hw|i0 c res Hc Hi Hres|i0 Hc Hi|i0 v Hc Hi|i0 v Hc Hi];
      simpl; rewrite ?outcomes_quiet by done; try done.
    + by rewrite Hm in IH.
    + rewrite Hm in IH. pose proof (finish_events _ _ _ _ _ Hf) as (_ & _ & Ho & _).
      rewrite outcomes_app, Ho, app_nil_r.
      unfold finish in Hf. rewrite (seen_Result _ _ IH) in Hf.
      destruct (as_Panicker (verdict (outcomes (trace s0)))) as [v|] eqn:Hp.
      * injection Hf as <- <- <-. by right.
      * rewrite (seen_Result _ _ IH) in Hf. by injection Hf as <- <- <-.
    + destruct (gone (main s0)) eqn:Hg.
      * by pose proof (gone_all_done r s0 i0 _ Hbal Hr Hg Hi).
      * destruct (main s0); try done. rewrite outcomes_app. simpl. subst res.
        by apply seen_Manage.
Qed.

(** ** What the manager is handed *)

Lemma outcomes_elem (tr : list event) (o : outcome) :
  o ∈ outcomes tr → ∃ i b n, EvManage i o b n ∈ tr.
Proof.
  induction tr as [|e tr IH]; simpl; [by intros ?%elem_of_nil|].
  destruct e as [j|j|j c|j err b n|j|v|res|v|];
    try (intros (i & b' & n' & H)%IH; exists i, b', n'; by apply elem_of_cons; right).
  intros [->|H]%elem_of_cons.
  - exists j, b, n. by apply elem_of_cons; left.
  - destruct (IH H) as (i & b' & n' & H'). exists i, b', n'. by apply elem_of_cons; right.
Qed.

(** Every outcome handed to [Manage] is what the closure's [err] holds when
    the body of its worker is over. *)
Lemma managed_outcome (r : run) (s : state r) (i : nat) (o : outcome) (b : bool) (n : Z) :
  balanced r → reachable r s → EvManage i o b n ∈ trace s →
  ∃ c, ended r i c ∧ o = err_of c ∧ EvBody i c ∈ trace s.
Proof.
  intros Hbal Hs Hin.
  assert (EvManage i o b n ∈ history i (trace s)) as Hin'.
  { apply elem_of_history. split; [done|]. simpl. by apply bool_decide_eq_true_2. }
  pose proof (reachable_scripted r s Hbal Hs i) as Hscr.
  assert (∀ c, EvBody i c ∈ history i (trace s) → EvBody i c ∈ trace s) as Hb.
  { intros c Hc. by apply elem_of_history in Hc as [? _]. }
  destruct (tasks s !! i) as [t|]; [|rewrite Hscr in Hin'; by apply elem_of_nil in Hin'].
  apply list_elem_of_In in Hin'.
  assert (∀ c, In (EvBody i c) (history i (trace s)) → EvBody i c ∈ trace s) as Hb'.
  { intros c Hc. apply Hb. by apply list_elem_of_In. }
  script_cases Hscr; try solve [exfalso; intuition discriminate];
    (eexists; split; [eassumption|]; split;
       [intuition congruence | apply Hb'; simpl; tauto]).
Qed.

Lemma first_error_nil (l : list outcome) :
  (∀ o, o ∈ l → o = None) → first_error l = None.
Proof.
  induction l as [|o l IH]; intros H; [done|].
  rewrite (H o) by (by apply elem_of_cons; left). simpl.
  apply IH. intros o' Ho'. apply H. by apply elem_of_cons; right.
Qed.

(** ** Progress and termination *)

Lemma backlog_insert (l : list tstatus) (i : nat) (x y : tstatus) :
  l !! i = Some x →
  (backlog (<[i := y]> l) + todo x = backlog l + todo y)%nat.
Proof.
  revert i. induction l as [|t l IH]; intros i Hi; [done|].
  destruct i as [|i]; simpl in *.
  - injection Hi as ->. lia.
  - specialize (IH i Hi). lia.
Qed.

Lemma backlog_zero_done (l : list tstatus) :
  backlog l = 0%nat → tally is_done l = length l.
Proof.
  induction l as [|t l IH]; simpl; [done|].
  intros H. rewrite IH by lia. destruct t; simpl in *; lia.
Qed.

Lemma backlog_positive (l : list tstatus) :
  (0 < backlog l)%nat → ∃ i t, l !! i = Some t ∧ (0 < todo t)%nat.
Proof.
  induction l as [|x l IH]; simpl; [lia|].
  destruct (decide (0 < todo x)%nat) as [Hx|Hx].
  - intros _. by exists 0%nat, x.
  - intros Hpos. destruct IH as (i & t & Hi & Ht); [lia|]. by exists (S i), t.
Qed.

(** With workers that never panic, no closure is ever unwinding. *)
Lemma calm_status (r : run) (s : state r) (i : nat) (t : tstatus) :
  balanced r → calm r → reachable r s → tasks s !! i = Some t → unwinding t = false.
Proof.
  intros Hbal Hcalm Hs Hi.
  pose proof (reachable_scripted r s Hbal Hs i) as Hscr. rewrite Hi in Hscr.
  assert (∀ c, ended r i c → panic_of c = None) as Hnone.
  { intros c (w & d & Hw & ->). by eapply Hcalm. }
  inversion Hscr as [| | |c Hc|c b n Hc|c b n Hc|c b n v Hc Hp]; try done.
  - specialize (Hnone c Hc). by destruct c.
  - by rewrite (Hnone c Hc).
  - rewrite (Hnone c Hc) in Hp. done.
Qed.

Lemma reachable_alive (r : run) (s : state r) :
  balanced r → calm r → reachable r s → crashed s = None.
Proof.
  intros Hbal Hcalm. revert s. apply reachable_invariant.
  - unfold start. by case_bool_decide.
  - intros s0 s1 Hr IH Hact.
    destruct Hact as [k Hc Hm Hk|k st evs exit Hc Hm Hk Hw Hf|i0 Hc Hi Ha
                     |i0 w Hc Hi Hw|i0 c res Hc Hi Hres|i0 Hc Hi|i0 v Hc Hi|i0 v Hc Hi];
      simpl; try done.
    by pose proof (calm_status r s0 i0 _ Hbal Hcalm Hr Hi).
Qed.

(** A run whose first [wg.Add] panics is over at once. *)
Lemma negative_gone (r : run) (s : state r) :
  r_add r < 0 → reachable r s → gone (main s) = true.
Proof.
  intros Hneg. revert s. apply reachable_invariant.
  - unfold start. by rewrite bool_decide_eq_true_2.
  - intros s0 s1 Hr IH Hact.
    destruct Hact as [k Hc Hm Hk|k st evs exit Hc Hm Hk Hw Hf|i0 Hc Hi Ha
                     |i0 w Hc Hi Hw|i0 c res Hc Hi Hres|i0 Hc Hi|i0 v Hc Hi|i0 v Hc Hi];
      simpl; try done.
    + by rewrite Hm in IH.
    + by eapply finish_gone.
Qed.

(** Every action but the death of the process takes one off what is left
    to do. *)
Lemma action_remaining (r : run) (s s' : state r) :
  accounts r s → action r s s' → crashed s' = None →
  remaining s = S (remaining s').
Proof.
  intros Hacc Hact. unfold remaining.
  destruct Hact as [k Hc Hm Hk|k st evs exit Hc Hm Hk Hw Hf|i0 Hc Hi Ha
                   |i0 w Hc Hi Hw|i0 c res Hc Hi Hres|i0 Hc Hi|i0 v Hc Hi|i0 v Hc Hi];
    simpl; intros Hc'; try done.
  - assert (tasks s !! k = Some Unsubmitted) as Hi.
    { apply (acc_rest _ _ Hacc); rewrite ?Hm; simpl; lia. }
    pose proof (backlog_insert _ _ _ Submitted Hi). rewrite Hm. simpl in *. lia.
  - rewrite Hm, (finish_gone _ _ _ _ _ Hf). simpl. lia.
  - pose proof (backlog_insert _ _ _ Running Hi). simpl in *. lia.
  - pose proof (backlog_insert _ _ _ (Ran (w (cancelled s))) Hi). simpl in *. lia.
  - pose proof (backlog_insert _ _ _ (Reported (panic_of c)) Hi). simpl in *. lia.
  - pose proof (backlog_insert _ _ _ Finished Hi). simpl in *. lia.
  - pose proof (backlog_insert _ _ _ (Escaped v) Hi). simpl in *. lia.
Qed.

(** No deadlock: while the entry point is not gone and the process lives,
    some goroutine can act, as long as the executer admits an action when
    it is idle. *)
Lemma progress_step (r : run) (s : state r) :
  balanced r → admits (r_executer r) 0 = true →
  reachable r s → crashed s = None → gone (main s) = false →
  ∃ c s', step c s = Some s'.
Proof.
  intros Hbal Hadm Hs Hc Hg.
  pose proof (reachable_accounts r s Hbal Hs) as Hacc.
  destruct (main s) as [k| |] eqn:Hm; try done.
  destruct (decide (k < length (r_group r))%nat) as [Hk|Hk].
  { exists Main. unfold step, step_main. rewrite Hc, Hm.
    rewrite bool_decide_eq_true_2 by done. by eexists. }
  assert (0 ≤ r_add r) as Hadd.
  { destruct (decide (0 ≤ r_add r)) as [|Hneg]; [done|].
    pose proof (negative_gone r s ltac:(lia) Hs) as Hg'. by rewrite Hm in Hg'. }
  pose proof (acc_progress _ _ Hacc) as Hprog. rewrite Hm in Hprog. simpl in Hprog.
  pose proof (tally_le_length is_submitted (tasks s)) as Hle.
  pose proof (acc_length _ _ Hacc) as Hlen.
  assert (k = length (r_group r)) as -> by lia.
  destruct (decide (backlog (tasks s) = 0)%nat) as [Hz|Hnz].
  - exists Main. unfold step, step_main. rewrite Hc, Hm.
    rewrite bool_decide_eq_false_2 by done.
    assert (wg s = 0) as Hw.
    { pose proof (acc_wg _ _ Hacc Hadd) as Hw.
      rewrite (backlog_zero_done _ Hz), Hprog, Hlen in Hw.
      destruct Hbal as [[He Ha]|[[He Ha]|[Ha Hgr]]]; lia. }
    rewrite bool_decide_eq_true_2 by done.
    destruct (finish _ _) as [[st evs] exit]. by eexists.
  - destruct (backlog_positive (tasks s)) as (i & t & Hi & Ht); [lia|].
    assert (∀ j t', tasks s !! j = Some t' → occupies t' = true →
                    ∃ s', step (Task j) s = Some s') as Hocc.
    { intros j t' Hj Ho. unfold step, step_task. rewrite Hc, Hj.
      destruct t' as [| | |c|[v|]| |v]; simpl in Ho; try done; try by eexists.
      destruct (r_group r !! j) as [w|] eqn:Hw; [by eexists|].
      apply lookup_ge_None in Hw. apply lookup_lt_Some in Hj.
      unfold Worker in *. lia. }
    destruct t as [| | |c|p| |v]; simpl in Ht; try lia.
    + pose proof (tally_full is_submitted (tasks s) i _ ltac:(lia) Hi). done.
    + destruct (admits (r_executer r) (held s)) eqn:Ha.
      * exists (Task i). unfold step, step_task. rewrite Hc, Hi, Ha. by eexists.
      * assert (0 < tally occupies (tasks s))%nat as Hpos.
        { rewrite <- (acc_held _ _ Hacc). destruct (held s); [congruence|lia]. }
        destruct (tally_positive _ _ Hpos) as (j & t' & Hj & Ho).
        exists (Task j). by eapply Hocc.
    + exists (Task i). by eapply Hocc.
    + exists (Task i). by eapply Hocc.
    + exists (Task i). by eapply Hocc.
Qed.

(** With workers that never panic, every reachable state of a run can be
    driven to the end of the entry point, in at most [remaining] actions. *)
Lemma completes (r : run) (n : nat) (s : state r) :
  balanced r → calm r → admits (r_executer r) 0 = true →
  reachable r s → (remaining s ≤ n)%nat →
  ∃ sched, (length sched ≤ n)%nat ∧ gone (main (exec sched s)) = true.
Proof.
  intros Hbal Hcalm Hadm. revert s. induction n as [|n IH]; intros s Hs Hrem.
  - exists []. split; [done|]. unfold remaining in Hrem. simpl.
    destruct (gone (main s)); [done|lia].
  - destruct (gone (main s)) eqn:Hg.
    { exists []. split; [simpl; lia|done]. }
    pose proof (reachable_alive r s Hbal Hcalm Hs) as Hc.
    destruct (progress_step r s Hbal Hadm Hs Hc Hg) as (c & s' & Hstep).
    assert (reachable r s') as Hs' by (by eapply reach_step).
    pose proof (action_remaining r s s' (reachable_accounts r s Hbal Hs)
                  (step_action _ _ _ Hstep) (reachable_alive r s' Hbal Hcalm Hs')) as Hdec.
    destruct (IH s' Hs' ltac:(lia)) as (sched & Hlen & Hgone).
    exists (c :: sched). split; [simpl; lia|]. simpl. by rewrite Hstep.
Qed.

(** ** Sequence numbers *)

Lemma one_to_S (n : nat) : one_to (S n) = one_to n ++ [Z.of_nat (S n)].
Proof. unfold one_to. by rewrite seq_S, map_app. Qed.

(** With a manager that numbers its calls, the sequence numbers on record
    are [1, 2, ..., k], and the counter stands at [k]. *)
Lemma reachable_sequenced (r : run) `{!Sequenced (r_manager r)} (s : state r) :
  reachable r s →
  seqnos (trace s) = one_to (length (seqnos (trace s))) ∧
  counter (mgr s) = Z.of_nat (length (seqnos (trace s))).
Proof.
  revert s. apply reachable_invariant.
  - unfold start. case_bool_decide; simpl; split; try done; apply counter_new.
  - intros s0 s1 Hr [IHs IHc] Hact.
    destruct Hact as [k Hc Hm Hk|k st evs exit Hc Hm Hk Hw Hf|i0 Hc Hi Ha
                     |i0 w Hc Hi Hw|i0 c res Hc Hi Hres|i0 Hc Hi|i0 v Hc Hi|i0 v Hc Hi];
      simpl; rewrite seqnos_app; simpl; rewrite ?app_nil_r; try done.
    + pose proof (finish_events _ _ _ _ _ Hf) as (_ & _ & _ & Hq).
      rewrite Hq, app_nil_r. split; [done|]. rewrite <- IHc.
      unfold finish in Hf.
      pose proof (Result_reads (mgr s0)) as H1.
      destruct (Result (r_manager r) (mgr s0)) as [st1 r1]. simpl in H1. subst st1.
      destruct (as_Panicker r1); [by injection Hf as <- _ _|].
      pose proof (Result_reads (mgr s0)) as H2.
      destruct (Result (r_manager r) (mgr s0)) as [st2 r2]. simpl in H2. subst st2.
      by injection Hf as <- _ _.
    + subst res.
      destruct (counter_Manage (mgr s0) (cancelled s0) None (err_of c)) as [Hn Hst].
      rewrite length_app. simpl. rewrite Nat.add_1_r, one_to_S, <- IHs.
      rewrite Hn, Hst, IHc. split; [|lia]. do 2 f_equal. lia.
Qed.

#[global] Instance CancelNeverFirstError_sequenced : Sequenced CancelNeverFirstError.
Proof.
  refine (Build_Sequenced CancelNeverFirstError count eq_refl _ (λ _, eq_refl)).
  intros st d p [e|]; simpl; [destruct (decided st)|]; done.
Qed.

#[global] Instance CancelOnFirstError_sequenced : Sequenced CancelOnFirstError.
Proof.
  refine (Build_Sequenced CancelOnFirstError count eq_refl _ (λ _, eq_refl)).
  intros st d p [e|]; simpl; [destruct (decided st)|]; done.
Qed.

#[global] Instance CancelOnFirstSuccess_sequenced : Sequenced CancelOnFirstSuccess.
Proof.
  refine (Build_Sequenced CancelOnFirstSuccess count eq_refl _ (λ _, eq_refl)).
  intros st d p [e|]; simpl; [destruct (kept st)|destruct (decided st)]; done.
Qed.

#[global] Instance CancelOnFirstComplete_sequenced : Sequenced CancelOnFirstComplete.
Proof.
  refine (Build_Sequenced CancelOnFirstComplete count eq_refl _ (λ _, eq_refl)).
  intros st d p e; simpl; destruct (decided st); done.
Qed.

#[global] Instance Recover_sequenced (m : Manager) `{!Sequenced m} : Sequenced (Recover m).
Proof.
  refine (Build_Sequenced (Recover m) (counter (m := m)) counter_new _ _).
  - intros st d [v|] e; simpl; apply counter_Manage.
  - intros st. apply (Result_reads (m := m)).
Qed.

#[global] Instance Repanic_sequenced (m : Manager) `{!Sequenced m} : Sequenced (Repanic m).
Proof.
  refine (Build_Sequenced (Repanic m) (counter (m := m)) counter_new _ _).
  - intros st d [v|] e; simpl; apply counter_Manage.
  - intros st. simpl. pose proof (Result_reads (m := m) st) as H.
    destruct (Result m st) as [st' [[]|]]; done.
Qed.

Lemma builtin_sequenced (m : Manager) : builtin m → inhabited (Sequenced m).
Proof.
  induction 1 as [| | | |m _ [IH]|m _ [IH]]; constructor; apply _.
Qed.

Lemma sequence_numbers_seqnos (r : run) `{!Sequenced (r_manager r)} (s : state r) :
  reachable r s → seqnos (trace s) = one_to (length (outcomes (trace s))).
Proof.
  intros Hs. destruct (reachable_sequenced r s Hs) as [H _].
  rewrite H. f_equal. clear. induction (trace s) as [|e tr IH]; [done|].
  destruct e; simpl; by rewrite ?IH.
Qed.

(** C3.  In every run with a built-in manager, under every schedule, the
    sequence numbers returned by the [Manage] calls, in the order in which the
    calls take effect, are exactly 1, 2, 3, ..., one per call: unique,
    strictly increasing, starting at 1, without gaps. *)
Theorem sequence_numbers_count_up (r : run) (sched : list choice) :
  entry r → builtin (r_manager r) →
  let s := exec sched (start r) in
  seqnos (trace s) = one_to (length (outcomes (trace s))).
Proof.
  intros _ Hb s. destruct (builtin_sequenced _ Hb) as [Hseq].
  apply sequence_numbers_seqnos; [done|apply reachable_exec].
Qed.

(** ** The default policy on the unbounded executer *)

(** A manager that never invokes the canceller leaves no cancelling call on
    record. *)
Lemma never_cancels (r : run) (s : state r) :
  (∀ st done p err, mg_cancel (Manage (r_manager r) st done p err) = false) →
  reachable r s → policy_cancelled (trace s) = false.
Proof.
  intros Hnever. revert s. apply reachable_invariant.
  - unfold start. by case_bool_decide.
  - intros s0 s1 Hr IH Hact.
    destruct Hact as [k Hc Hm Hk|k st evs exit Hc Hm Hk Hw Hf|i0 Hc Hi Ha
                     |i0 w Hc Hi Hw|i0 c res Hc Hi Hres|i0 Hc Hi|i0 v Hc Hi|i0 v Hc Hi];
      simpl; rewrite ?policy_cancelled_snoc, ?IH; simpl; try done.
    + unfold policy_cancelled in *. rewrite cancels_app.
      apply finish_events in Hf as (_ & -> & _). by rewrite app_nil_r.
    + subst res. apply Hnever.
Qed.

Lemma CancelNeverFirstError_never st done p err :
  mg_cancel (Manage CancelNeverFirstError st done p err) = false.
Proof. destruct err; simpl; [destruct (decided st)|]; done. Qed.

Lemma body_runs_script (r : run) (i : nat) (t : tstatus) (h : list event) :
  script r i t h →
  (body_runs i h ≤ 1)%nat ∧ (is_done t = true → body_runs i h = 1%nat).
Proof.
  destruct 1; simpl; rewrite ?bool_decide_eq_true_2 by done; split; (lia || done).
Qed.

Lemma unbounded_never_run (r : run) :
  unbounded_never r →
  entry r ∧ r_executer r = NewUnlimited ∧
  ∃ ctx g a e, r = Run ctx NewUnlimited CancelNeverFirstError g a e.
Proof.
  destruct 1; (split; [constructor|]); (split; [done|]); by eexists _, _, _, _.
Qed.

(** C2.  In every run of [Work] or [WorkFor] with the unbounded executer and
    [CancelNeverFirstError], under every schedule: no worker body is run
    twice; no [Manage] call invokes the canceller; once the entry point is
    past [wg.Wait()] every worker body has run exactly once; a returned
    result is the first non-nil outcome in the order of the [Manage] calls
    (whose sequence numbers count 1, 2, 3, ...), hence nil if every worker
    returns nil; and with workers that do not panic, every schedule can be
    continued until the entry point is done. *)
Theorem unbounded_never_first_error (r : run) (sched : list choice) :
  unbounded_never r →
  let s := exec sched (start r) in
  (∀ i, (i < length (r_group r))%nat → (body_runs i (trace s) ≤ 1)%nat) ∧
  policy_cancelled (trace s) = false ∧
  seqnos (trace s) = one_to (length (outcomes (trace s))) ∧
  (gone (main s) = true →
   ∀ i, (i < length (r_group r))%nat → body_runs i (trace s) = 1%nat) ∧
  (∀ res, main s = Returned res → res = first_error (outcomes (trace s))) ∧
  ((∀ i worker done, r_group r !! i = Some worker → worker done = Returns None) →
   ∀ res, main s = Returned res → res = None) ∧
  (calm r → ∃ more, gone (main (exec (sched ++ more) (start r))) = true).
Proof.
  intros Hun s.
  destruct (unbounded_never_run r Hun) as (He & Hex & ctx & g & a & e & Hr).
  pose proof (entry_balanced r He) as Hbal.
  pose proof (reachable_exec r sched) as Hs. fold s in Hs.
  assert (∀ res, main s = Returned res → res = first_error (outcomes (trace s))) as Hres.
  { clear He Hex Hun. subst r. intros res Hm.
    pose proof (reachable_settled _ first_error s Hbal Hs) as Hset.
    unfold settled in Hset. rewrite Hm in Hset. tauto. }
  split; [|split; [|split; [|split; [|split; [|split]]]]].
  - intros i Hi. destruct (worker_script r s i Hbal Hs Hi) as (t & Ht & Hscr).
    rewrite <- body_runs_history. by apply (body_runs_script r i t).
  - apply never_cancels; [|done]. subst r. apply CancelNeverFirstError_never.
  - apply sequence_numbers_seqnos; [|done]. subst r. simpl. apply _.
  - intros Hg i Hi. destruct (worker_script r s i Hbal Hs Hi) as (t & Ht & Hscr).
    rewrite <- body_runs_history. apply (body_runs_script r i t); [done|].
    by eapply gone_all_done.
  - done.
  - intros Hnil res Hm. rewrite (Hres res Hm). apply first_error_nil.
    intros o (i & b & n & Hin)%outcomes_elem.
    destruct (managed_outcome r s i o b n Hbal Hs Hin) as (c & (w & d & Hw & ->) & -> & _).
    by rewrite (Hnil i w d Hw).
  - intros Hcalm.
    destruct (completes r (remaining s) s Hbal Hcalm) as (more & _ & Hg);
      [by rewrite Hex|done|lia|].
    exists more. by rewrite exec_app.
Qed.

(** ** The two [Result()] calls *)

Lemma builtin_Result_reads (m : Manager) (st : mstate m) :
  builtin m → (Result m st).1 = st.
Proof. intros [Hseq]%builtin_sequenced. apply Result_reads. Qed.

(** C9.  Under every schedule, no [Result()] call is on record before the
    entry point is gone.  When it has returned [res], the record ends with:
    the probing [Result()] call, which found no [Panic()] method; right after
    it the second [Result()] call, whose value [res] is returned; then the
    deferred [cancel()]; with every [Manage] call before the two and none
    after.  For a built-in manager, [Result()] leaves the manager as it was,
    so the two calls yield the same outcome.  When the probe finds a
    [Panic()] method the entry point re-raises instead, and the probe is the
    only [Result()] call. *)
Theorem Result_called_twice (r : run) (sched : list choice) :
  entry r →
  let s := exec sched (start r) in
  (gone (main s) = false → results (trace s) = []) ∧
  (∀ res, main s = Returned res →
     ∃ pre post r1,
       trace s = pre ++ EvResult r1 :: EvResult res :: EvCancel :: post ∧
       results (trace s) = [r1; res] ∧ as_Panicker r1 = None ∧
       outcomes pre = outcomes (trace s) ∧
       (builtin (r_manager r) → r1 = res)) ∧
  (builtin (r_manager r) →
   ∀ st, Result (r_manager r) (Result (r_manager r) st).1 = Result (r_manager r) st) ∧
  (∀ v, main s = Panicked v → 0 ≤ r_add r →
     ∃ r1, results (trace s) = [r1] ∧ as_Panicker r1 = Some v).
Proof.
  intros He s. pose proof (entry_balanced r He) as Hbal.
  pose proof (reachable_concluded r s Hbal (reachable_exec r sched)) as Hcon.
  fold s in Hcon. unfold concluded in Hcon.
  split; [|split; [|split]].
  - intros Hg. by destruct (main s).
  - intros res Hm. rewrite Hm in Hcon.
    destruct Hcon as (pre & post & st0 & st1 & st2 & r1 & Htr & Hpre & Hpost & Ho & H1 & Hp & H2).
    exists pre, post, r1. split; [done|]. rewrite Htr.
    rewrite results_app, outcomes_app. simpl. rewrite Hpre, Hpost, Ho, app_nil_r.
    repeat split; try done.
    intros Hb. pose proof (builtin_Result_reads _ st0 Hb) as Hrd.
    rewrite H1 in Hrd. simpl in Hrd. subst st1. congruence.
  - intros Hb st. by rewrite builtin_Result_reads.
  - intros v Hm Hadd. rewrite Hm in Hcon.
    destruct Hcon as [?|(pre & post & st0 & st1 & r1 & Htr & Hpre & Hpost & Ho & H1 & Hp)];
      [lia|].
    exists r1. split; [|done]. rewrite Htr, results_app. simpl. by rewrite Hpre, Hpost.
Qed.

(** ** Bounded executers *)

Lemma admits_capacity (e : Executer) (k held : nat) :
  capacity e = Some k → admits e held = true → (held < k)%nat.
Proof.
  destruct e as [|k'|scope k']; simpl; try done; intros [= ->].
  - by intros ?%bool_decide_eq_true_1.
  - by intros [_ ?%bool_decide_eq_true_1]%andb_true_iff.
Qed.

(** A bounded executer never has more than [k] closures begun and not yet
    returned. *)
Lemma reachable_within_capacity (r : run) (k : nat) (s : state r) :
  capacity (r_executer r) = Some k → reachable r s → (held s ≤ k)%nat.
Proof.
  intros Hcap. revert s. apply reachable_invariant.
  - unfold start. case_bool_decide; simpl; lia.
  - intros s0 s1 Hr IH Hact.
    destruct Hact as [j Hc Hm Hk|j st evs exit Hc Hm Hk Hw Hf|i0 Hc Hi Ha
                     |i0 w Hc Hi Hw|i0 c res Hc Hi Hres|i0 Hc Hi|i0 v Hc Hi|i0 v Hc Hi];
      simpl; try done; try lia.
    by apply (admits_capacity (r_executer r)).
Qed.

(** C7.  In every run on [NewLimited(k)] or [NewPool(_, k)], under every
    schedule, at most [k] worker bodies are executing at any instant; the
    entry point's [e.Execute] is never blocked: while the loop has a worker
    left to submit, its next action can be taken, however many closures
    wait or run; and if [k >= 1], the pool's context is not done and the
    workers do not panic, every schedule can be continued until the entry
    point is done. *)
Theorem bounded_executer_limit (r : run) (k : nat) (sched : list choice) :
  entry r → capacity (r_executer r) = Some k →
  let s := exec sched (start r) in
  (tally in_body (tasks s) ≤ k)%nat ∧
  (∀ j, main s = Submitting j → (j < length (r_group r))%nat → crashed s = None →
        ∃ s', step Main s = Some s' ∧ main s' = Submitting (S j) ∧
              tasks s' !! j = Some Submitted) ∧
  (admits (r_executer r) 0 = true → calm r →
   ∃ more, gone (main (exec (sched ++ more) (start r))) = true).
Proof.
  intros He Hcap s. pose proof (entry_balanced r He) as Hbal.
  pose proof (reachable_exec r sched) as Hs. fold s in Hs.
  pose proof (reachable_accounts r s Hbal Hs) as Hacc.
  split; [|split].
  - pose proof (reachable_within_capacity r k s Hcap Hs) as Hle.
    rewrite (acc_held _ _ Hacc) in Hle.
    pose proof (tally_mono in_body occupies (tasks s)) as Hmono.
    etrans; [apply Hmono|done]. by intros [].
  - intros j Hm Hj Hc. unfold step, step_main. rewrite Hc, Hm.
    rewrite bool_decide_eq_true_2 by done. eexists. split; [done|]. simpl.
    split; [done|]. apply list_lookup_insert_eq. rewrite (acc_length _ _ Hacc). done.
  - intros Hadm Hcalm.
    destruct (completes r (remaining s) s Hbal Hcalm Hadm Hs) as (more & _ & Hg); [lia|].
    exists more. by rewrite exec_app.
Qed.

(** ** Defaults *)

Lemma same_run_same_behaviour (r1 r2 : run) : r1 = r2 → same_behaviour r1 r2.
Proof. intros ->. by intros sched. Qed.

(** C8.  A nil context stands for [context.TODO()], which is never done; a
    nil executer for the unbounded executer; a nil manager for
    [CancelNeverFirstError]: each entry point sets up the same run for the
    nil argument as for the explicit value, whatever the other arguments,
    and no schedule tells the two runs apart. *)
Theorem nil_arguments_default :
  Done TODO = false ∧
  (∀ e m g, Work None e m g = Work (Some TODO) e m g) ∧
  (∀ ctx m g, Work ctx None m g = Work ctx (Some NewUnlimited) m g) ∧
  (∀ ctx e g, Work ctx e None g = Work ctx e (Some CancelNeverFirstError) g) ∧
  (∀ n e m w, WorkFor None n e m w = WorkFor (Some TODO) n e m w) ∧
  (∀ ctx n m w, WorkFor ctx n None m w = WorkFor ctx n (Some NewUnlimited) m w) ∧
  (∀ ctx n e w, WorkFor ctx n e None w = WorkFor ctx n e (Some CancelNeverFirstError) w) ∧
  (∀ e m g, WorkChan None e m g = WorkChan (Some TODO) e m g) ∧
  (∀ ctx m g, WorkChan ctx None m g = WorkChan ctx (Some NewUnlimited) m g) ∧
  (∀ ctx e g, WorkChan ctx e None g = WorkChan ctx e (Some CancelNeverFirstError) g) ∧
  (∀ g, same_behaviour (Work None None None g)
          (Work (Some Background) (Some NewUnlimited) (Some CancelNeverFirstError) g)) ∧
  (∀ n w, same_behaviour (WorkFor None n None None w)
            (WorkFor (Some Background) n (Some NewUnlimited) (Some CancelNeverFirstError) w)) ∧
  (∀ g, same_behaviour (WorkChan None None None g)
          (WorkChan (Some Background) (Some NewUnlimited) (Some CancelNeverFirstError) g)).
Proof.
  repeat split; try done; intros; by apply same_run_same_behaviour.
Qed.

(** ** A body that panics *)

Lemma body_on_record (r : run) (s : state r) (i : nat) (c : completion) :
  balanced r → reachable r s → EvBody i c ∈ trace s →
  ∃ t, tasks s !! i = Some t ∧ script r i t (history i (trace s)) ∧
       (t = Ran c ∨ t = Reported (panic_of c) ∨
        (t = Finished ∧ panic_of c = None) ∨ (∃ v, t = Escaped v ∧ panic_of c = Some v)) ∧
       ∀ o b n, EvManage i o b n ∈ trace s → o = err_of c.
Proof.
  intros Hbal Hs Hin.
  assert (EvBody i c ∈ history i (trace s)) as Hin'.
  { apply elem_of_history. split; [done|]. simpl. by apply bool_decide_eq_true_2. }
  assert (∀ o b n, EvManage i o b n ∈ trace s → In (EvManage i o b n) (history i (trace s)))
    as Hman.
  { intros o b n Ho. apply list_elem_of_In, elem_of_history. split; [done|].
    simpl. by apply bool_decide_eq_true_2. }
  pose proof (reachable_scripted r s Hbal Hs i) as Hscr.
  destruct (tasks s !! i) as [t|]; [|rewrite Hscr in Hin'; by apply elem_of_nil in Hin'].
  exists t. split; [done|]. split; [done|].
  apply list_elem_of_In in Hin'.
  script_cases Hscr; try solve [exfalso; intuition discriminate].
  - assert (c0 = c) as -> by intuition congruence.
    split; [tauto|]. intros o b n Ho. specialize (Hman o b n Ho). simpl in Hman.
    exfalso; intuition discriminate.
  - assert (c0 = c) as -> by intuition congruence.
    split; [tauto|]. intros o b' n' Ho. specialize (Hman o b' n' Ho). simpl in Hman.
    intuition congruence.
  - assert (c0 = c) as -> by intuition congruence.
    split; [tauto|]. intros o b' n' Ho. specialize (Hman o b' n' Ho). simpl in Hman.
    intuition congruence.
  - assert (c0 = c) as -> by intuition congruence.
    split; [by eauto 6|]. intros o b' n' Ho. specialize (Hman o b' n' Ho). simpl in Hman.
    intuition congruence.
Qed.

(** C10.  When the body of worker [i] has panicked with [v], under every
    schedule and for every manager: every [Manage] call for [i] is handed
    nil; the closure is still unwinding or has been left by the panic, it
    never returns; if the deferred [Manage] call is still due it can be
    taken, is handed nil and leaves the panic unwinding; and when the panic
    has left the closure, the [Manage] call and [wg.Done()] are on record
    before it. *)
Theorem panic_reports_nil (r : run) (sched : list choice) (i : nat) (v : value) :
  entry r →
  let s := exec sched (start r) in
  EvBody i (Panics v) ∈ trace s →
  (∀ o b n, EvManage i o b n ∈ trace s → o = None) ∧
  (tasks s !! i = Some (Ran (Panics v)) ∨ tasks s !! i = Some (Reported (Some v)) ∨
   tasks s !! i = Some (Escaped v)) ∧
  (tasks s !! i = Some (Ran (Panics v)) → crashed s = None →
   ∃ s' b n, step (Task i) s = Some s' ∧ trace s' = trace s ++ [EvManage i None b n] ∧
             tasks s' !! i = Some (Reported (Some v))) ∧
  (tasks s !! i = Some (Escaped v) →
   ∃ b n, history i (trace s) =
            [EvExecute i; EvBegin i; EvBody i (Panics v); EvManage i None b n; EvDone i]).
Proof.
  intros He s Hin. pose proof (entry_balanced r He) as Hbal.
  pose proof (reachable_exec r sched) as Hs. fold s in Hs.
  destruct (body_on_record r s i _ Hbal Hs Hin) as (t & Ht & Hscr & Hst & Hman).
  simpl in Hst, Hman. split; [done|]. split; [|split].
  - rewrite Ht. destruct Hst as [->|[->|[[_ ?]|(v' & -> & [= ->])]]]; try done; tauto.
  - intros Ht' Hc. unfold step, step_task. rewrite Hc, Ht'. simpl.
    eexists _, _, _. split; [done|]. simpl. split; [done|].
    apply list_lookup_insert_eq. by eapply lookup_lt_Some.
  - intros Ht'. rewrite Ht' in Ht. injection Ht as <-.
    assert (In (EvBody i (Panics v)) (history i (trace s))) as Hin'.
    { apply list_elem_of_In, elem_of_history. split; [done|]. simpl.
      by apply bool_decide_eq_true_2. }
    script_cases Hscr. assert (c = Panics v) as -> by intuition congruence.
    by eexists _, _.
Qed.

(** ** The panicking worker under [Recover] and [Repanic] *)

Lemma indexed_lookup (n : Z) (w : WorkerIdx) (i : nat) (worker : Worker) :
  indexed n w !! i = Some worker → worker = λ done, w done (Z.of_nat i).
Proof.
  unfold indexed. rewrite list_lookup_fmap.
  destruct (seq 0 (Z.to_nat n) !! i) as [j|] eqn:Hj; [|done].
  apply lookup_seq in Hj as [-> _]. by intros [= <-].
Qed.

Lemma first_error_elem (l : list outcome) (e : error) :
  first_error l = Some e → Some e ∈ l.
Proof.
  induction l as [|[e'|] l IH]; simpl; [done| |].
  - intros [= ->]. by apply elem_of_cons; left.
  - intros H. apply elem_of_cons; right. by apply IH.
Qed.

(** Whatever the manager, the outcomes of the [faulty] worker that reach
    [Manage] are nil or [context.Canceled]: the panic of worker 0 reaches it
    as nil. *)
Lemma faulty_outcomes (r : run) (n : Z) (s : state r) (o : outcome) :
  balanced r → r_group r = indexed n faulty → reachable r s →
  o ∈ outcomes (trace s) → o = None ∨ o = Some Canceled.
Proof.
  intros Hbal Hg Hs (i & b & k & Hin)%outcomes_elem.
  destruct (managed_outcome r s i o b k Hbal Hs Hin) as (c & (w & d & Hw & ->) & -> & _).
  rewrite Hg in Hw. apply indexed_lookup in Hw as ->.
  unfold faulty. destruct (Z.of_nat i =? 0); [by left|]. destruct d; simpl; tauto.
Qed.

Lemma recover_run_balanced : balanced recover_run.
Proof. apply entry_balanced. constructor. Qed.

Lemma repanic_run_balanced : balanced repanic_run.
Proof. apply entry_balanced. constructor. Qed.

(** C6 on the code.  [WorkFor] with [Recover(CancelOnFirstError())] and a
    worker that panics with ["boom"]: when the closure of that worker runs
    first, [Manage] is handed nil and the panic leaves the goroutine, which
    ends the process with the entry point still in [wg.Wait()]; and under no
    schedule does the entry point return an error that reads
    ["panic: boom"]. *)
Theorem Recover_run_fault_escapes :
  (let s := exec panic_first (start recover_run) in
   crashed s = Some boom ∧ main s = Submitting 2 ∧ outcomes (trace s) = [None]) ∧
  (∀ sched res e,
     main (exec sched (start recover_run)) = Returned res →
     res = Some e → Error e ≠ "panic: boom"%string).
Proof.
  split; [by vm_compute|].
  intros sched res e Hm ->.
  pose proof (reachable_exec recover_run sched) as Hs.
  pose proof (@reachable_settled recover_run first_error (Recover_decides _ _) _
                recover_run_balanced Hs) as Hset.
  unfold settled in Hset. rewrite Hm in Hset. destruct Hset as [Hres _].
  symmetry in Hres. apply first_error_elem in Hres.
  destruct (faulty_outcomes recover_run 2 _ _ recover_run_balanced eq_refl Hs Hres)
    as [?|[= ->]]; done.
Qed.

(** C5 on the code.  The same run with [Repanic(CancelOnFirstError())]: the
    panic ends the process from the worker's goroutine, and under no
    schedule does the entry point re-raise anything. *)
Theorem Repanic_run_never_reraises :
  (let s := exec panic_first (start repanic_run) in
   crashed s = Some boom ∧ main s = Submitting 2 ∧ outcomes (trace s) = [None]) ∧
  (∀ sched v, main (exec sched (start repanic_run)) ≠ Panicked v).
Proof.
  split; [by vm_compute|].
  intros sched v Hm.
  pose proof (reachable_exec repanic_run sched) as Hs.
  pose proof (@reachable_settled repanic_run _ (Repanic_decides _ first_error) _
                repanic_run_balanced Hs) as Hset.
  unfold settled in Hset. rewrite Hm in Hset. destruct Hset as [Hneg|Hp]; [done|].
  destruct (first_error _) as [e|] eqn:Hres; [|done].
  apply first_error_elem in Hres.
  destruct (faulty_outcomes repanic_run 2 _ _ repanic_run_balanced eq_refl Hs Hres)
    as [?|[= ->]]; done.
Qed.

(** The entry point's half of the re-raise protocol holds for every
    manager: when the entry point re-raises [v], every worker has been
    managed exactly once, and the one [Result()] call carried a [Panic()]
    method raising [v]. *)
Lemma reraise_after_all_managed (r : run) (sched : list choice) (i : nat) (v : value) :
  entry r → 0 ≤ r_add r → (i < length (r_group r))%nat →
  main (exec sched (start r)) = Panicked v →
  manage_calls i (trace (exec sched (start r))) = 1%nat ∧
  ∃ r1, results (trace (exec sched (start r))) = [r1] ∧ as_Panicker r1 = Some v.
Proof.
  intros He Hadd Hi Hm. pose proof (entry_balanced r He) as Hbal.
  pose proof (reachable_exec r sched) as Hs.
  split.
  - destruct (worker_script r _ i Hbal Hs Hi) as (t & Ht & Hscr).
    assert (is_done t = true) as Hd.
    { eapply gone_all_done; eauto. by rewrite Hm. }
    rewrite <- manage_calls_history.
    script_cases Hscr; try done; by rewrite bool_decide_eq_true_2.
  - pose proof (reachable_concluded r _ Hbal Hs) as Hcon.
    unfold concluded in Hcon. rewrite Hm in Hcon.
    destruct Hcon as [?|(pre & post & st0 & st1 & r1 & Htr & Hpre & Hpost & Ho & H1 & Hp)];
      [lia|].
    exists r1. split; [|done]. rewrite Htr, results_app. simpl. by rewrite Hpre, Hpost.
Qed.

(** Were [recover()] to yield the panic inside [Manage], as it does when
    [Manage] itself is the deferred call, the decorators would do what the
    specification says of them. *)
Lemma Recover_Manage_intercepts (m : Manager) (st : mstate m) (done : bool) (v : value) :
  Manage (Recover m) st done (recover_at 0 (Some v)) None =
  Manage m st done None (Some (PanicError v)).
Proof. done. Qed.

Lemma Repanic_Result_marks (st : policy_state) (v : value) :
  kept st = Some (PanicError v) →
  as_Panicker (Result (Repanic CancelOnFirstError) st).2 = Some v.
Proof. simpl. by intros ->. Qed.

(** ** The theorems at concrete runs *)

Lemma Manage_once_before_Done_witness :
  entry three ∧ (2 < length (r_group three))%nat ∧
  history 2 (trace (exec last_first (start three))) =
    [EvExecute 2; EvBegin 2; EvBody 2 (Returns (Some (Plain "b")));
     EvManage 2 (Some (Plain "b")) false 1; EvDone 2] ∧
  manage_calls 2 (trace (exec last_first (start three))) = 1%nat.
Proof.
  assert (entry three) as He by constructor.
  assert (2 < length (r_group three))%nat as Hi by (vm_compute; lia).
  split; [exact He|]. split; [exact Hi|]. split; [reflexivity|].
  destruct (Manage_once_before_Done three last_first 2 He Hi) as (_ & Hdone & Hgone & _).
  apply Hdone. apply Hgone. reflexivity.
Defined.

Lemma unbounded_never_first_error_witness :
  unbounded_never three ∧
  main (exec last_first (start three)) = Returned (Some (Plain "b")) ∧
  first_error (outcomes (trace (exec last_first (start three)))) = Some (Plain "b").
Proof.
  assert (unbounded_never three) as Hun by apply (un_Work None).
  split; [exact Hun|]. split; [reflexivity|].
  destruct (unbounded_never_first_error three last_first Hun) as (_ & _ & _ & _ & Hres & _).
  symmetry. apply Hres. reflexivity.
Defined.

Lemma sequence_numbers_count_up_witness :
  entry three_recovering ∧ builtin (r_manager three_recovering) ∧
  seqnos (trace (exec last_first (start three_recovering))) = [1; 2; 3].
Proof.
  assert (entry three_recovering) as He by constructor.
  assert (builtin (r_manager three_recovering)) as Hb by (repeat constructor).
  split; [exact He|]. split; [exact Hb|].
  exact (sequence_numbers_count_up three_recovering last_first He Hb).
Defined.

Lemma child_scope_cancelled_on_exit_witness :
  (entry (Work None None None [succeeds]) ∧
   main (exec single (start (Work None None None [succeeds]))) = Returned None ∧
   cancelled (exec single (start (Work None None None [succeeds]))) = true) ∧
  (entry (WorkChan None None None [fails "a"]) ∧
   main (exec single (start (WorkChan None None None [fails "a"])))
     = Returned (Some (Plain "a")) ∧
   cancelled (exec single (start (WorkChan None None None [fails "a"]))) = true) ∧
  (entry (Work None None None [hands_back boom]) ∧
   main (exec single (start (Work None None None [hands_back boom]))) = Panicked boom ∧
   cancelled (exec single (start (Work None None None [hands_back boom]))) = true) ∧
  (entry (WorkFor None (-1) None None (λ _ _, Returns None)) ∧
   main (exec [] (start (WorkFor None (-1) None None (λ _ _, Returns None))))
     = Panicked negative_counter ∧
   cancelled (exec [] (start (WorkFor None (-1) None None (λ _ _, Returns None)))) = true).
Proof.
  split; [|split; [|split]].
  - split; [constructor|]. split; [reflexivity|].
    apply (child_scope_cancelled_on_exit (Work None None None [succeeds]) single);
      [constructor|reflexivity].
  - split; [constructor|]. split; [reflexivity|].
    apply (child_scope_cancelled_on_exit (WorkChan None None None [fails "a"]) single);
      [constructor|reflexivity].
  - split; [constructor|]. split; [reflexivity|].
    apply (child_scope_cancelled_on_exit (Work None None None [hands_back boom]) single);
      [constructor|reflexivity].
  - split; [constructor|]. split; [reflexivity|].
    apply (child_scope_cancelled_on_exit
             (WorkFor None (-1) None None (λ _ _, Returns None)) []);
      [constructor|reflexivity].
Defined.

Lemma bounded_executer_limit_witness :
  entry three_limited ∧ capacity (r_executer three_limited) = Some 1%nat ∧
  (tally in_body (tasks (exec [Main; Main; Task 1; Task 0; Main; Task 2]
                           (start three_limited))) ≤ 1)%nat ∧
  tasks (exec [Main; Main; Task 1; Task 0; Main; Task 2] (start three_limited))
    = [Submitted; Running; Submitted].
Proof.
  assert (entry three_limited) as He by constructor.
  split; [exact He|]. split; [reflexivity|]. split; [|reflexivity].
  apply (bounded_executer_limit three_limited 1
           [Main; Main; Task 1; Task 0; Main; Task 2] He eq_refl).
Defined.

Lemma Result_called_twice_witness :
  entry three ∧
  results (trace (exec last_first (start three))) = [Some (Plain "b"); Some (Plain "b")] ∧
  ∃ pre post r1,
    trace (exec last_first (start three)) =
      pre ++ EvResult r1 :: EvResult (Some (Plain "b")) :: EvCancel :: post ∧
    results (trace (exec last_first (start three))) = [r1; Some (Plain "b")] ∧
    as_Panicker r1 = None ∧
    outcomes pre = outcomes (trace (exec last_first (start three))) ∧
    (builtin (r_manager three) → r1 = Some (Plain "b")).
Proof.
  assert (entry three) as He by constructor.
  split; [exact He|]. split; [reflexivity|].
  destruct (Result_called_twice three last_first He) as (_ & Hret & _ & _).
  apply Hret. reflexivity.
Defined.

Lemma panic_reports_nil_witness :
  entry (Work None None None [panics boom]) ∧
  EvBody 0 (Panics boom) ∈
    trace (exec [Main; Task 0; Task 0; Task 0; Task 0]
             (start (Work None None None [panics boom]))) ∧
  outcomes (trace (exec [Main; Task 0; Task 0; Task 0; Task 0]
                     (start (Work None None None [panics boom])))) = [None] ∧
  ∃ b n,
    history 0 (trace (exec [Main; Task 0; Task 0; Task 0; Task 0]
                        (start (Work None None None [panics boom])))) =
      [EvExecute 0; EvBegin 0; EvBody 0 (Panics boom); EvManage 0 None b n; EvDone 0].
Proof.
  assert (entry (Work None None None [panics boom])) as He by constructor.
  assert (EvBody 0 (Panics boom) ∈
            trace (exec [Main; Task 0; Task 0; Task 0; Task 0]
                     (start (Work None None None [panics boom])))) as Hin.
  { apply list_elem_of_In. vm_compute. tauto. }
  split; [exact He|]. split; [exact Hin|]. split; [reflexivity|].
  destruct (panic_reports_nil (Work None None None [panics boom])
              [Main; Task 0; Task 0; Task 0; Task 0] 0 boom He Hin) as (_ & _ & _ & Hesc).
  apply Hesc. reflexivity.
Defined.
